(** * song-detector: the rolling capture buffer and the orchestration of [main]

    A shallow embedding of [song-detector.js].  The script keeps the last
    [BUFFER_SECONDS] of raw PCM audio in a circular Node [Buffer]
    ([circularBuffer], [writeOffset]), fills it from the [data] events of an
    ffmpeg child process ([writeChunkToCircularBuffer]) and linearises it on
    demand ([getSnapshot]); [main] routes the input device, waits for a key and
    restores the device in a [finally] block.

    JavaScript numbers are modelled by [Z]: every number the ring buffer
    computes is an index or a length, far below 2^53, so double arithmetic is
    exact on them.  [%] is the truncating remainder [Z.rem].  The model covers
    [0 < BUFFER_SIZE]; a zero divisor (a [NaN] in JavaScript) is outside it, and
    every statement below assumes the ring invariant, which implies
    [0 < BUFFER_SIZE]. *)

From Stdlib Require Import ZArith Lia Strings.Byte.
From stdpp Require Import base option list strings.

Local Open Scope Z_scope.

(** ** Outcomes of a call *)

(** A call returns, throws, or (for the fuelled reading of a [while] loop) has
    not finished within the given number of iterations. *)
Inductive error : Type :=
| ERR_OUT_OF_RANGE.

Inductive outcome (A : Type) : Type :=
| Returns (a : A)
| Throws (e : error)
| OutOfFuel.

Arguments Returns {A} a.
Arguments Throws {A} e.
Arguments OutOfFuel {A}.

Global Instance outcome_ret : MRet outcome := fun A a => Returns a.
Global Instance outcome_bind : MBind outcome := fun A B k m =>
  match m with
  | Returns a => k a
  | Throws e => Throws e
  | OutOfFuel => OutOfFuel
  end.

(** ** Node buffers *)

Module NodeBuffer.

(** The store of [ArrayBuffer]s, indexed in allocation order. *)
Abbreviation heap := (list (list byte)) (only parsing).

(** A [Buffer] object is a view on an [ArrayBuffer]: [slice] shares the
    memory of the buffer it is taken from. *)
Record Buffer : Type := mkBuffer {
  buffer : nat;
  byteOffset : Z;
  byteLength : Z
}.

(** The bytes a view shows. *)
Definition contents (h : heap) (b : Buffer) : list byte :=
  take (Z.to_nat (byteLength b))
       (drop (Z.to_nat (byteOffset b)) (default [] (h !! buffer b))).

(** [Buffer.alloc(size)]: a zero-filled buffer on an [ArrayBuffer] of its
    own; a negative size is a range error. *)
Definition alloc (size : Z) (h : heap) : outcome (Buffer * heap) :=
  if size <? 0 then Throws ERR_OUT_OF_RANGE
  else Returns (mkBuffer (length h) 0 size,
                h ++ [replicate (Z.to_nat size) x00]).

(** Index normalisation of [slice]: negative indices count from the end,
    and the result is clamped to [0 .. length]. *)
Definition adjustOffset (offset len : Z) : Z :=
  if offset =? 0 then 0
  else if offset <? 0 then
    (if 0 <? offset + len then offset + len else 0)
  else if offset <? len then offset
  else len.

(** [buf.slice(start, end)]; [None] is an omitted [end]. *)
Definition slice (b : Buffer) (start : Z) (end_ : option Z) : Buffer :=
  let srcLength := byteLength b in
  let start := adjustOffset start srcLength in
  let end_ := match end_ with
              | Some e => adjustOffset e srcLength
              | None => srcLength
              end in
  let newLength := if start <? end_ then end_ - start else 0 in
  mkBuffer (buffer b) (byteOffset b + start) newLength.

(** Store [blk] in [ArrayBuffer] [id] from byte index [at_] on. *)
Definition poke (h : heap) (id : nat) (at_ : Z) (blk : list byte) : heap :=
  match h !! id with
  | Some l => <[id := list_inserts (Z.to_nat at_) blk l]> h
  | None => h
  end.

(** [source.copy(target, targetStart, sourceStart, sourceEnd)], where
    [src] is what the source buffer shows when the call is made.  Negative
    positions and a [sourceStart] past the source are range errors; the
    number of bytes copied is clamped to what the source has and to what the
    target has room for.  The callers ignore the returned byte count, so
    only the store is returned. *)
Definition copy (src : list byte) (target : Buffer)
    (targetStart sourceStart sourceEnd : Z) (h : heap) : outcome heap :=
  let srcLength := Z.of_nat (length src) in
  if targetStart <? 0 then Throws ERR_OUT_OF_RANGE
  else if (sourceStart <? 0) || (srcLength <? sourceStart)
  then Throws ERR_OUT_OF_RANGE
  else if sourceEnd <? 0 then Throws ERR_OUT_OF_RANGE
  else if (byteLength target <=? targetStart) || (sourceEnd <=? sourceStart)
  then Returns h
  else
    let sourceEnd :=
      if byteLength target - targetStart <? sourceEnd - sourceStart
      then sourceStart + byteLength target - targetStart
      else sourceEnd in
    let nb := sourceEnd - sourceStart in
    let sourceLen := srcLength - sourceStart in
    let nb := if sourceLen <? nb then sourceLen else nb in
    Returns (poke h (buffer target) (byteOffset target + targetStart)
               (take (Z.to_nat nb) (drop (Z.to_nat sourceStart) src))).

(** A view lies within its [ArrayBuffer]. *)
Definition valid (h : heap) (b : Buffer) : Prop :=
  ∃ l, h !! buffer b = Some l
       ∧ 0 ≤ byteOffset b ∧ 0 ≤ byteLength b
       ∧ byteOffset b + byteLength b ≤ Z.of_nat (length l).

End NodeBuffer.

Import NodeBuffer.

(** ** Circular buffer settings *)

Module Settings.
Definition SAMPLE_RATE : Z := 44100.
Definition CHANNELS : Z := 1.
Definition BYTES_PER_SAMPLE : Z := 2.
Definition BUFFER_SECONDS : Z := 4.
Definition BUFFER_SIZE : Z :=
  SAMPLE_RATE * CHANNELS * BYTES_PER_SAMPLE * BUFFER_SECONDS.
End Settings.

(** ** The circular buffer *)

(** The module-level variables of the script that the ring buffer uses. *)
Record state : Type := mkState {
  mem : heap;
  circularBuffer : Buffer;
  writeOffset : Z
}.

Section RingBuffer.

(** The capacity; the script fixes it to [Settings.BUFFER_SIZE]. *)
Variable BUFFER_SIZE : Z.

(** [let circularBuffer = Buffer.alloc(BUFFER_SIZE); let writeOffset = 0;] *)
Definition init : outcome state :=
  '(b, h) ← alloc BUFFER_SIZE [];
  mret (mkState h b 0).

Definition getSnapshot (s : state) : outcome (Buffer * state) :=
  '(snapshot, h) ← alloc BUFFER_SIZE (mem s);
  let endPart := slice (circularBuffer s) (writeOffset s) None in
  let startPart := slice (circularBuffer s) 0 (Some (writeOffset s)) in
  let src := contents h endPart in
  h ← copy src snapshot 0 0 (Z.of_nat (length src)) h;
  let src := contents h startPart in
  h ← copy src snapshot (byteLength endPart) 0 (Z.of_nat (length src)) h;
  mret (snapshot, mkState h (circularBuffer s) (writeOffset s)).

(** The local variables of the [while] loop. *)
Record locals : Type := mkLocals {
  remaining : Z;
  chunkOffset : Z
}.

(** One pass through the body of the loop. *)
Definition iteration (chunk : list byte) (v : locals) (s : state)
    : outcome (locals * state) :=
  let spaceUntilEnd := BUFFER_SIZE - writeOffset s in
  let bytesToWrite := Z.min spaceUntilEnd (remaining v) in
  h ← copy chunk (circularBuffer s) (writeOffset s)
         (chunkOffset v) (chunkOffset v + bytesToWrite) (mem s);
  mret (mkLocals (remaining v - bytesToWrite) (chunkOffset v + bytesToWrite),
        mkState h (circularBuffer s)
          (Z.rem (writeOffset s + bytesToWrite) BUFFER_SIZE)).

(** [while (remaining > 0) { ... }], at most [fuel] passes. *)
Fixpoint while_remaining (fuel : nat) (chunk : list byte) (v : locals)
    (s : state) : outcome state :=
  if 0 <? remaining v then
    match fuel with
    | O => OutOfFuel
    | S fuel =>
        '(v, s) ← iteration chunk v s;
        while_remaining fuel chunk v s
    end
  else Returns s.

(** [chunk] is the buffer a [data] event hands over; the function only
    reads it, and it shares no memory with [circularBuffer], so it is given
    by its bytes. *)
Definition writeChunkToCircularBuffer (fuel : nat) (chunk : list byte)
    (s : state) : outcome state :=
  while_remaining fuel chunk (mkLocals (Z.of_nat (length chunk)) 0) s.

(** The [data] handler of [startContinuousRecording]; a pass of the loop
    copies at least one byte, so one pass per byte of the chunk is enough
    (see [while_remaining_terminates]). *)
Definition on_data (chunk : list byte) (s : state) : outcome state :=
  writeChunkToCircularBuffer (length chunk) chunk s.

(** The handler run on the chunks of a stream, in arrival order. *)
Fixpoint feed (chunks : list (list byte)) (s : state) : outcome state :=
  match chunks with
  | [] => Returns s
  | chunk :: chunks => s ← on_data chunk s; feed chunks s
  end.

(** [n] calls of [getSnapshot] in a row, the returned buffers dropped. *)
Fixpoint snapshots (n : nat) (s : state) : outcome state :=
  match n with
  | O => Returns s
  | S n => '(_, s) ← getSnapshot s; snapshots n s
  end.

(** The bytes a call of [getSnapshot] hands to its caller. *)
Definition snapshot_bytes (s : state) : outcome (list byte) :=
  '(snapshot, s) ← getSnapshot s;
  mret (contents (mem s) snapshot).

(** A run of the script's buffer: start up, receive [chunks], take a
    snapshot. *)
Definition run (chunks : list (list byte)) : outcome (list byte) :=
  s ← init;
  s ← feed chunks s;
  snapshot_bytes s.

(** What [circularBuffer] holds. *)
Definition storage (s : state) : list byte :=
  contents (mem s) (circularBuffer s).

(** The ring invariant: [circularBuffer] is a view of [BUFFER_SIZE] bytes
    inside its [ArrayBuffer], and [writeOffset] is an index into it. *)
Definition ring_ok (s : state) : Prop :=
  valid (mem s) (circularBuffer s)
  ∧ byteLength (circularBuffer s) = BUFFER_SIZE
  ∧ 0 ≤ writeOffset s < BUFFER_SIZE.

End RingBuffer.

(** ** Reading the ring in time order *)

(** Read a ring from index [w] on, wrapping round. *)
Definition rotl {A : Type} (w : nat) (l : list A) : list A :=
  drop w l ++ take w l.

(** The ring whose reading from index [w] on is [l]. *)
Definition rotr {A : Type} (w : nat) (l : list A) : list A :=
  rotl (length l - w) l.

(** The bytes of the ring from the oldest to the newest: the byte at
    [writeOffset] is the next to be overwritten. *)
Definition window (s : state) : list byte :=
  rotl (Z.to_nat (writeOffset s)) (storage s).

(** Two states with the same ring: the same view, the same offset and the
    same bytes under the view. *)
Definition same_ring (s s' : state) : Prop :=
  circularBuffer s' = circularBuffer s
  ∧ writeOffset s' = writeOffset s
  ∧ storage s' = storage s.

(** [s'] differs from [s] at most in [writeOffset] and in what
    [circularBuffer] shows. *)
Definition updates (s s' : state) : Prop :=
  circularBuffer s' = circularBuffer s
  ∧ mem s' = poke (mem s) (buffer (circularBuffer s))
               (byteOffset (circularBuffer s)) (storage s').

(** ** The orchestration: [main]

    [main] is read as a program over the calls whose outcome the script does
    not decide.  Each of them completes, raises an exception (for an awaited
    promise: rejects), or is the last thing the process does ([Killed]): the
    process is ended there by a signal (the script installs no handler, so
    the default action ends the process at once), by an exception that
    escapes an event handler, or in any other way that lets [main] go no
    further.  A process that is gone runs no [finally] block, and none of
    the rest of one it is in. *)

Module Orchestration.

Definition BLACKHOLE_NAME : string := "BlackHole 2ch".

(** The calls of [main], by line. *)
Inductive point : Type :=
| GetCurrentInput    (* 308: getCurrentInput() *)
| RouteInput         (* 312: switchInput(BLACKHOLE_NAME) *)
| StartRecording     (* 316, 125: ffmpegProcess = exec(cmd, ...) *)
| AttachListeners    (* 316, 127-133: ffmpegProcess.stdout.on, .on *)
| WarmUp             (* 320: await new Promise(... setTimeout ...) *)
| WaitForKeypress    (* 322: await waitForKeypress() *)
| TakeSnapshot       (* 327: getSnapshot() *)
| Recognize          (* 330: await recognizeWithRapidAPI(audioBuffer) *)
| StopRecording      (* 337: ffmpegProcess.kill('SIGINT') *)
| RestoreInput.      (* 339: switchInput(originalInput) *)

Inductive fate : Type := Completes | Raises | Killed.

(** What the script meets when it runs. *)
Record world : Type := mkWorld {
  currentInput : string;
  fate_of : point → fate
}.

(** What the script does to the outside. *)
Inductive event : Type :=
| SwitchInput (at_ : point) (device : string) (switched : bool)
| Kill
| Exit (code : Z).

Record session : Type := mkSession {
  log : list event;
  ffmpegProcess : bool       (* [false] is [null] *)
}.

Inductive completion (A : Type) : Type :=
| Normal (a : A)
| Thrown
| Gone.

Arguments Normal {A} a.
Arguments Thrown {A}.
Arguments Gone {A}.

Definition action (A : Type) : Type := session → completion A * session.

#[global] Instance action_ret : MRet action := fun A a σ => (Normal a, σ).
#[global] Instance action_bind : MBind action := fun A B k m σ =>
  match m σ with
  | (Normal a, σ) => k a σ
  | (Thrown, σ) => (Thrown, σ)
  | (Gone, σ) => (Gone, σ)
  end.

(** [try { body } finally { fin }]: [fin] runs when [body] has completed
    or thrown, and its own abrupt completion replaces that of [body]. *)
Definition try_finally (body fin : action unit) : action unit := fun σ =>
  match body σ with
  | (Gone, σ) => (Gone, σ)
  | (c, σ) =>
      match fin σ with
      | (Normal _, σ) => (c, σ)
      | (c', σ) => (c', σ)
      end
  end.

Definition emit (e : event) : action unit := fun σ =>
  (Normal (), mkSession (log σ ++ [e]) (ffmpegProcess σ)).

(** [process.exit(code)]. *)
Definition process_exit {A : Type} (code : Z) : action A := fun σ =>
  (Gone, mkSession (log σ ++ [Exit code]) (ffmpegProcess σ)).

(** A call that lets its exception through, or an awaited promise. *)
Definition call (w : world) (p : point) : action unit := fun σ =>
  match fate_of w p with
  | Completes => (Normal (), σ)
  | Raises => (Thrown, σ)
  | Killed => (Gone, σ)
  end.

(** [getCurrentInput]: the [catch] block leaves the process. *)
Definition getCurrentInput (w : world) : action string := fun σ =>
  match fate_of w GetCurrentInput with
  | Completes => (Normal (currentInput w), σ)
  | Raises => process_exit 1 σ
  | Killed => (Gone, σ)
  end.

(** [switchInput]: the [catch] block logs and the call returns. *)
Definition switchInput (w : world) (p : point) (device : string)
    : action unit := fun σ =>
  match fate_of w p with
  | Completes => emit (SwitchInput p device true) σ
  | Raises => emit (SwitchInput p device false) σ
  | Killed => (Gone, σ)
  end.

(** [ffmpegProcess = exec(...)]: the assignment is made once [exec] has
    returned. *)
Definition assign_ffmpegProcess : action unit := fun σ =>
  (Normal (), mkSession (log σ) true).

(** [startContinuousRecording]: [exec] can throw, before [ffmpegProcess] is
    assigned; the registration of the listeners on the child and its
    [stdout] can throw after it. *)
Definition startContinuousRecording (w : world) : action unit :=
  call w StartRecording;;
  assign_ffmpegProcess;;
  call w AttachListeners.

(** [if (ffmpegProcess) ffmpegProcess.kill('SIGINT')]: a failure to
    signal the child is reported by the value returned or by an [error]
    event, not by an exception, so the call returns whether the signal was
    delivered or not.  A run that goes no further than this call is the
    fate [Killed]. *)
Definition stopRecording (w : world) : action unit := fun σ =>
  if ffmpegProcess σ then
    match fate_of w StopRecording with
    | Killed => (Gone, σ)
    | _ => emit Kill σ
    end
  else (Normal (), σ).

Definition main (w : world) : action unit :=
  originalInput ← getCurrentInput w;
  try_finally
    (switchInput w RouteInput BLACKHOLE_NAME;;
     startContinuousRecording w;;
     call w WarmUp;;
     call w WaitForKeypress;;
     call w TakeSnapshot;;
     call w Recognize)
    (stopRecording w;;
     switchInput w RestoreInput originalInput;;
     process_exit 0).

(** The log of a run of the script. *)
Definition trace (w : world) : list event :=
  log (snd (main w (mkSession [] false))).

Definition is_restore (e : event) : bool :=
  match e with
  | SwitchInput RestoreInput _ _ => true
  | _ => false
  end.

(** How often the run calls [switchInput(originalInput)]. *)
Definition restorations (w : world) : nat :=
  length (List.filter is_restore (trace w)).

(** A run in which every call completes, but for the fate [f] at [p]. *)
Definition but_for (p : point) (f : fate) : world :=
  mkWorld "MacBook Pro Microphone"
    (fun q => match p, q with
              | GetCurrentInput, GetCurrentInput
              | RouteInput, RouteInput
              | StartRecording, StartRecording
              | AttachListeners, AttachListeners
              | WarmUp, WarmUp
              | WaitForKeypress, WaitForKeypress
              | TakeSnapshot, TakeSnapshot
              | Recognize, Recognize
              | StopRecording, StopRecording
              | RestoreInput, RestoreInput => f
              | _, _ => Completes
              end).

End Orchestration.

(** ** Reading a trace *)

Module Trace.
Import Orchestration.

(** The active input device after [events], when it was [device] before:
    a switch that succeeded makes its device the active one. *)
Definition active_input (device : string) (events : list event) : string :=
  foldl (fun d e => match e with
                    | SwitchInput _ d' true => d'
                    | _ => d
                    end) device events.

(** The status the process has exited with. *)
Definition exit_status (events : list event) : option Z :=
  match last events with
  | Some (Exit code) => Some code
  | _ => None
  end.

Definition is_kill (e : event) : bool :=
  match e with
  | Kill => true
  | _ => false
  end.

(** How often the run signals the ffmpeg child. *)
Definition kills (w : world) : nat :=
  length (List.filter is_kill (trace w)).

End Trace.

(** ** JavaScript values

    What a parsed JSON reply, an error object or an argument can be, and the
    operations the script applies to them.  Numbers are integers: the only
    numbers the script computes with are an array length and the status
    406.  A string stands for its sequence of UTF-16 code units; the script
    tests strings for emptiness and equality, shows them, and in one
    comparison reads one as a number.  The property names the
    script reads are fields of replies; none of them names a built-in method
    or accessor, so on an array or a string only [length] is there.

    The values are data: none of them is a function.  So the conversion of
    an object to a string or to a number runs no code of the reply; it goes
    through [Object.prototype.toString], or through [Array.prototype.join]
    for an array, and it throws a [TypeError] exactly when it meets an
    object with a property [toString] of its own, which hides the one that
    could be called. *)

Module Js.

#[warnings="-register-all"]
Inductive value : Type :=
| Undefined
| Null
| Bool (b : bool)
| Num (n : Z)
| Str (s : string)
| Arr (items : list value)
| Obj (fields : list (string * value)).

(** What a [throw] or a rejected promise carries: a [TypeError] raised by
    the script's own property accesses, or the reason of a rejected
    request. *)
Inductive thrown : Type :=
| TypeError
| Rejection (reason : value).

Inductive completion (A : Type) : Type :=
| Ok (a : A)
| Throw (e : thrown).

Arguments Ok {A} a.
Arguments Throw {A} e.

#[global] Instance completion_ret : MRet completion := fun A a => Ok a.
#[global] Instance completion_bind : MBind completion := fun A B k m =>
  match m with
  | Ok a => k a
  | Throw e => Throw e
  end.

(** [ToBoolean]. *)
Definition truthy (v : value) : bool :=
  match v with
  | Undefined | Null => false
  | Bool b => b
  | Num n => negb (n =? 0)
  | Str s => negb (String.eqb s "")
  | Arr _ | Obj _ => true
  end.

Definition nullish (v : value) : bool :=
  match v with
  | Undefined | Null => true
  | _ => false
  end.

Fixpoint field (k : string) (fields : list (string * value)) : value :=
  match fields with
  | [] => Undefined
  | (k', v) :: fields => if String.eqb k k' then v else field k fields
  end.

(** [v.k] *)
Definition get (v : value) (k : string) : completion value :=
  match v with
  | Undefined | Null => Throw TypeError
  | Obj fields => Ok (field k fields)
  | Arr items =>
      if String.eqb k "length" then Ok (Num (Z.of_nat (length items)))
      else Ok Undefined
  | Str s =>
      if String.eqb k "length" then Ok (Num (Z.of_nat (String.length s)))
      else Ok Undefined
  | Bool _ | Num _ => Ok Undefined
  end.

(** [v?.k] *)
Definition get_opt (v : value) (k : string) : completion value :=
  if nullish v then Ok Undefined else get v k.

(** [v[0]] *)
Definition first (v : value) : completion value :=
  match v with
  | Undefined | Null => Throw TypeError
  | Arr items => Ok (default Undefined (head items))
  | Obj fields => Ok (field "0" fields)
  | Str s =>
      match s with
      | EmptyString => Ok Undefined
      | String c _ => Ok (Str (String c EmptyString))
      end
  | Bool _ | Num _ => Ok Undefined
  end.

(** [v?.[0]] *)
Definition first_opt (v : value) : completion value :=
  if nullish v then Ok Undefined else first v.

(** No array, no object. *)
Definition primitive (v : value) : bool :=
  match v with
  | Arr _ | Obj _ => false
  | _ => true
  end.

(** Whether [ToString] gives a string for [v], rather than throw.  An
    object is converted by the [toString] it finds, its own or else the one
    of [Object.prototype]; its own is data and cannot be called, and
    [valueOf], tried next, gives no primitive.  An array is joined, each
    element converted in turn ([null] and [undefined] to the empty
    string). *)
Fixpoint stringifies (v : value) : bool :=
  match v with
  | Arr items => forallb stringifies items
  | Obj fields =>
      negb (existsb (fun kv => String.eqb (fst kv) "toString") fields)
  | _ => true
  end.

(** Whether the string that [ToString] gives for [v] is empty: the empty
    string, and an array that joins to it; two elements are joined with a
    comma. *)
Fixpoint text_empty (v : value) : bool :=
  match v with
  | Str s => String.eqb s ""
  | Arr [] => true
  | Arr [item] => nullish item || text_empty item
  | _ => false
  end.

(** [v > 0].  A string is read as a number; an array or an object is first
    converted, with [valueOf] (which gives the object back) and then
    [toString] as above; the text of an object is [[object Object]], no
    number.  [positive v] stands for the reading of the text of a string or
    of an array: whether it is a number greater than 0. *)
Definition gt_zero (positive : value → bool) (v : value)
    : completion bool :=
  match v with
  | Num n => Ok (0 <? n)
  | Undefined | Null => Ok false
  | Bool b => Ok b
  | Str _ => Ok (positive v)
  | Arr _ => if stringifies v then Ok (positive v) else Throw TypeError
  | Obj _ => if stringifies v then Ok false else Throw TypeError
  end.

(** [a === b], for an [a] read from a reply that was parsed after [b] was
    there: when both are arrays or objects they are two objects, however
    alike. *)
Definition strict_eq (a b : value) : bool :=
  match a, b with
  | Undefined, Undefined | Null, Null => true
  | Bool x, Bool y => Bool.eqb x y
  | Num x, Num y => x =? y
  | Str x, Str y => String.eqb x y
  | _, _ => false
  end.

(** The value a template literal takes in, when its conversion to a string
    does not throw.  The line shows the text of that value. *)
Definition interpolate (v : value) : completion value :=
  if stringifies v then Ok v else Throw TypeError.

(** [a || b] for a [b] that is at hand. *)
Definition or_else (a b : value) : value := if truthy a then a else b.

End Js.

(** ** Recognition and the YouTube look-ups

    The three functions that talk to the web services, as programs that
    send requests and write to the console.  A request is answered by the
    reply the function is run with.  A line written to the console is
    recorded with the values it shows. *)

Module Api.
Import Js.

Inductive request : Type :=
| ShazamDetect       (* POST shazam.p.rapidapi.com/songs/detect *)
| YouTubeSearch      (* GET youtube/v3/search *)
| YouTubeVideos.     (* GET youtube/v3/videos *)

Inductive reply : Type :=
| Fulfils (response : value)
| Rejects (reason : value).

(** What [err.response?.data || err.message] shows of an error. *)
Inductive detail : Type :=
| OfReason (v : value)
| OfTypeError.

Inductive event : Type :=
| Sent (r : request)
| ShazamTime                       (* "Shazam time:" *)
| SongDetected                     (* "=== Song Detected ===" *)
| Title (v : value)
| Artist (v : value)
| Album (v : value)
| Link (v : value)
| NoMatch                          (* "No match found." *)
| PossibleReasons
| RapidApiError (d : detail)
| WrongFormat                      (* "406 -> Wrong format ..." *)
| YouTubeSearchTime                (* "YouTube search time:" *)
| YouTubeMatch
| VideoTitle (v : value)
| Channel (v : value)
| VideoLink (v : value)
| SearchFailed (d : detail)
| RecommendedSongs                 (* "=== Recommended Songs ... ===" *)
| Recommended (index : Z) (title : value)
| RecommendedLink (v : value)
| Separator                        (* "---" *)
| RecommendationFailed (d : detail).

Definition prog (A : Type) : Type := list event → completion A * list event.

#[global] Instance prog_ret : MRet prog := fun A a l => (Ok a, l).
#[global] Instance prog_bind : MBind prog := fun A B k m l =>
  match m l with
  | (Ok a, l) => k a l
  | (Throw e, l) => (Throw e, l)
  end.

Definition lift {A : Type} (c : completion A) : prog A := fun l => (c, l).

Definition log (e : event) : prog unit := fun l => (Ok (), l ++ [e]).

(** [try { body } catch (err) { handler }] *)
Definition try_catch {A : Type} (body : prog A) (handler : thrown → prog A)
    : prog A := fun l =>
  match body l with
  | (Throw e, l) => handler e l
  | r => r
  end.

(** [await axios(...)] *)
Definition axios (r : request) (answer : reply) : prog value := fun l =>
  match answer with
  | Fulfils response => (Ok response, l ++ [Sent r])
  | Rejects reason => (Throw (Rejection reason), l ++ [Sent r])
  end.

(** [err.response?.data || err.message]; a [TypeError] has a message and
    no [response]. *)
Definition describe (err : thrown) : prog detail :=
  match err with
  | TypeError => mret OfTypeError
  | Rejection err =>
      response ← lift (get err "response");
      data ← lift (get_opt response "data");
      if truthy data then mret (OfReason data)
      else message ← lift (get err "message"); mret (OfReason message)
  end.

(** [error.response?.status === 406] *)
Definition status_is_406 (err : thrown) : prog bool :=
  match err with
  | TypeError => mret false
  | Rejection err =>
      response ← lift (get err "response");
      status ← lift (get_opt response "status");
      mret (strict_eq status (Num 406))
  end.

Definition searchYouTubeVideo (answer : reply) (title artist : value)
    : prog value :=
  try_catch
    (_ ← lift (interpolate title);
     _ ← lift (interpolate artist);
     response ← axios YouTubeSearch answer;
     data ← lift (get response "data");
     items ← lift (get data "items");
     video ← lift (first items);
     if negb (truthy video) then mret Null
     else
       log YouTubeMatch;;
       snippet ← lift (get video "snippet");
       title ← lift (get snippet "title");
       title ← lift (interpolate title);
       log (VideoTitle title);;
       snippet ← lift (get video "snippet");
       channelTitle ← lift (get snippet "channelTitle");
       channelTitle ← lift (interpolate channelTitle);
       log (Channel channelTitle);;
       id ← lift (get video "id");
       videoId ← lift (get id "videoId");
       videoId ← lift (interpolate videoId);
       log (VideoLink videoId);;
       id ← lift (get video "id");
       videoId ← lift (get id "videoId");
       mret videoId)
    (fun err =>
       d ← describe err;
       log (SearchFailed d);;
       mret Null).

(** [item => item.id.videoId !== videoId] *)
Definition is_other_video (videoId item : value) : completion bool :=
  id ← get item "id";
  itemId ← get id "videoId";
  mret (negb (strict_eq itemId videoId)).

(** [items.filter(keep)]: only an array has a [filter]. *)
Fixpoint filter_list (keep : value → completion bool) (items : list value)
    : completion (list value) :=
  match items with
  | [] => Ok []
  | item :: items =>
      k ← keep item;
      rest ← filter_list keep items;
      mret (if (k : bool) then item :: rest else rest)
  end.

Definition filter (keep : value → completion bool) (items : value)
    : completion (list value) :=
  match items with
  | Arr items => filter_list keep items
  | _ => Throw TypeError
  end.

(** The body of the [forEach] callback. *)
Definition show_recommendation (item : value) (index : Z) : prog unit :=
  snippet ← lift (get item "snippet");
  title ← lift (get snippet "title");
  title ← lift (interpolate title);
  log (Recommended (index + 1) title);;
  id ← lift (get item "id");
  videoId ← lift (get id "videoId");
  videoId ← lift (interpolate videoId);
  log (RecommendedLink videoId);;
  log Separator.

(** [items.forEach((item, index) => ...)], from [index] on. *)
Fixpoint for_each (index : Z) (items : list value) : prog unit :=
  match items with
  | [] => mret ()
  | item :: items =>
      show_recommendation item index;;
      for_each (index + 1) items
  end.

Definition getYouTubeRecommendations (video channel : reply)
    (videoId : value) : prog value :=
  try_catch
    (videoResponse ← axios YouTubeVideos video;
     data ← lift (get videoResponse "data");
     items ← lift (get data "items");
     video ← lift (first items);
     if negb (truthy video) then mret Undefined
     else
       snippet ← lift (get video "snippet");
       _ ← lift (get snippet "channelId");
       response ← axios YouTubeSearch channel;
       log RecommendedSongs;;
       data ← lift (get response "data");
       items ← lift (get data "items");
       others ← lift (filter (is_other_video videoId) items);
       for_each 0 (take 5 others);;
       mret Undefined)
    (fun err =>
       d ← describe err;
       log (RecommendationFailed d);;
       mret Undefined).

(** The replies of the services to the requests of one recognition. *)
Record web : Type := mkWeb {
  shazam : reply;
  search : reply;
  videos : reply;
  channel : reply
}.

(** The function expression [(async () => { ... })] of
    [recognizeWithRapidAPI]. *)
Definition recommend (w : web) (detectedTrack : value) : prog unit :=
  title ← lift (get detectedTrack "title");
  subtitle ← lift (get detectedTrack "subtitle");
  youtubeVideoId ← searchYouTubeVideo (search w) title subtitle;
  log YouTubeSearchTime;;
  if truthy youtubeVideoId
  then getYouTubeRecommendations (videos w) (channel w) youtubeVideoId;;
       mret ()
  else mret ().

(** [audioBuffer.toString('base64')], before the [try], converts a buffer
    and cannot throw.  The function expression after the [Link] line is
    evaluated and not called.  [positive] is the reading of texts as numbers
    that [>] uses, see [gt_zero]; what is proved of the function is proved
    for every such reading. *)
Definition recognizeWithRapidAPI (positive : value → bool) (w : web)
    : prog value :=
  try_catch
    (response ← axios ShazamDetect (shazam w);
     log ShazamTime;;
     data ← lift (get response "data");
     matches ← lift (get data "matches");
     len ← lift (get_opt matches "length");
     found ← lift (gt_zero positive len);
     if (found : bool) then
       data ← lift (get response "data");
       track ← lift (get data "track");
       detectedTrack ←
         (if truthy track then mret track
          else matches ← lift (get data "matches");
               first_match ← lift (first matches);
               lift (get first_match "track"));
       log SongDetected;;
       title ← lift (get detectedTrack "title");
       title ← lift (interpolate (or_else title (Str "Unknown")));
       log (Title title);;
       subtitle ← lift (get detectedTrack "subtitle");
       artist ←
         (if truthy subtitle then mret subtitle
          else artists ← lift (get detectedTrack "artists");
               first_artist ← lift (first_opt artists);
               alias ← lift (get_opt first_artist "alias");
               mret (or_else alias (Str "Unknown")));
       artist ← lift (interpolate artist);
       log (Artist artist);;
       sections ← lift (get detectedTrack "sections");
       section ← lift (first_opt sections);
       metadata ← lift (get_opt section "metadata");
       entry ← lift (first_opt metadata);
       text ← lift (get_opt entry "text");
       album ← lift (interpolate (or_else text (Str "N/A")));
       log (Album album);;
       share ← lift (get detectedTrack "share");
       href ← lift (get_opt share "href");
       (if truthy href then
          share ← lift (get detectedTrack "share");
          href ← lift (get share "href");
          href ← lift (interpolate href);
          log (Link href)
        else mret ());;
       let _ := recommend w detectedTrack in
       mret detectedTrack
     else
       log NoMatch;;
       log PossibleReasons;;
       mret Null)
    (fun error =>
       d ← describe error;
       log (RapidApiError d);;
       wrong ← status_is_406 error;
       (if (wrong : bool) then log WrongFormat else mret ());;
       mret Undefined).

(** The requests among the events of a run. *)
Definition requests (events : list event) : list request :=
  omap (fun e => match e with Sent r => Some r | _ => None end) events.

(** The links of the recommendations shown. *)
Definition recommended_links (events : list event) : list value :=
  omap (fun e => match e with RecommendedLink v => Some v | _ => None end)
    events.

(** The numbers of the recommendations shown. *)
Definition recommended_numbers (events : list event) : list Z :=
  omap (fun e => match e with Recommended i _ => Some i | _ => None end)
    events.

(** A search result as YouTube sends it, as far as the script reads it. *)
Definition search_item (videoId title : string) : value :=
  Obj [("id", Obj [("videoId", Str videoId)]);
       ("snippet", Obj [("title", Str title)])].

End Api.

(** ** What the three functions are asked to keep *)

Module ApiSpec.
Import Js Api.

(** From a log [l], [m] appends only events that [Q] allows, throws only
    what [P] allows and returns only what [R] allows. *)
Definition behaves {A : Type} (P : thrown → Prop) (Q : event → Prop)
    (R : A → Prop) (m : prog A) : Prop :=
  ∀ l, ∃ l', snd (m l) = l ++ l'
    ∧ Forall Q l'
    ∧ (∀ e, fst (m l) = Throw e → P e)
    ∧ (∀ a, fst (m l) = Ok a → R a).

(** From a log [l], [m] appends a list that [L] allows, throws only what
    [P] allows and returns only what [R] allows. *)
Definition emits {A : Type} (P : thrown → Prop) (L : list event → Prop)
    (R : A → Prop) (m : prog A) : Prop :=
  ∀ l, ∃ l', snd (m l) = l ++ l'
    ∧ L l'
    ∧ (∀ e, fst (m l) = Throw e → P e)
    ∧ (∀ a, fst (m l) = Ok a → R a).

(** What a [catch] block of the script copes with: a [TypeError], or a
    rejection whose reason is an object, as axios gives it. *)
Definition catchable (e : thrown) : Prop :=
  match e with
  | TypeError => True
  | Rejection reason => nullish reason = false
  end.

(** An event that is no request and shows no falsy value where a fallback
    is written in the line. *)
Definition quiet_and_filled (e : event) : Prop :=
  match e with
  | Sent _ => False
  | Title v | Artist v | Album v | Link v => truthy v = true
  | _ => True
  end.

(** No recommendation line. *)
Definition plain (e : event) : Prop :=
  match e with
  | Recommended _ _ | RecommendedLink _ => False
  | _ => True
  end.

(** The recommendation lines of a log are numbered [from + 1], [from + 2],
    ..., at most [room] of them, each with at most one link, and no link
    shows a value that [===] holds equal to [videoId]. *)
Definition tidy (videoId : value) (from : Z) (room : nat)
    (l : list event) : Prop :=
  ∃ n, (n ≤ room)%nat
    ∧ recommended_numbers l = (fun i => from + Z.of_nat i) <$> seq 1 n
    ∧ (length (recommended_links l) ≤ n)%nat
    ∧ Forall (fun v => strict_eq v videoId = false) (recommended_links l).

(** The reply of the search, with the ids and titles of its items. *)
Definition search_items (entries : list (string * string)) : value :=
  Arr ((fun '(id, title) => search_item id title) <$> entries).

(** The three lines of recommendation number [i + 1]. *)
Definition shown (i : nat) (entry : string * string) : list event :=
  [Recommended (Z.of_nat i + 1) (Str entry.2); RecommendedLink (Str entry.1);
   Separator].

End ApiSpec.

(** ** Waiting for a key

    [waitForKeypress] and the part of [process.stdin] it uses: whether it
    is a terminal, the terminal mode, whether the stream is flowing, and the
    [once] listeners for [data].  [setRawMode] is a method of a terminal
    stream only: on any other stdin the call throws, inside the executor of
    the promise, which rejects the promise.  A flowing stream hands a key to
    its listeners; a [once] listener is removed before it is called. *)

Module Keyboard.

Inductive line : Type :=
| Prompt          (* "Press ANY key to start recording (play music now)... " *)
| Recording.      (* "\nRecording..." *)

Record terminal : Type := mkTerminal {
  isTTY : bool;
  rawMode : bool;
  flowing : bool;
  listeners : nat;
  resolved : nat;         (* how often [resolve()] was called *)
  rejected : bool;        (* the executor has thrown *)
  output : list line
}.

(** A terminal as the script finds it. *)
Definition cooked : terminal := mkTerminal true false false 0 0 false [].

(** A stdin that is a pipe or a file. *)
Definition piped : terminal := mkTerminal false false false 0 0 false [].

(** The executor of the promise. *)
Definition waitForKeypress (t : terminal) : terminal :=
  if isTTY t then
    mkTerminal true true true (S (listeners t)) (resolved t) (rejected t)
      (output t ++ [Prompt])
  else
    mkTerminal false (rawMode t) (flowing t) (listeners t) (resolved t) true
      (output t ++ [Prompt]).

(** The listener. *)
Definition listener (t : terminal) : terminal :=
  mkTerminal (isTTY t) false false (listeners t) (S (resolved t))
    (rejected t) (output t ++ [Recording]).

(** A key is pressed. *)
Definition key (t : terminal) : terminal :=
  if flowing t then
    Nat.iter (listeners t) listener
      (mkTerminal (isTTY t) (rawMode t) (flowing t) 0 (resolved t)
         (rejected t) (output t))
  else t.

(** [n] keys are pressed. *)
Definition keys (n : nat) (t : terminal) : terminal := Nat.iter n key t.

End Keyboard.

(** ** Sample states *)

(** A ring of four bytes after the chunk 01 02 03. *)
Definition ring4 : state :=
  mkState [[x01; x02; x03; x00]] (mkBuffer 0 0 4) 3.

(** A ring of four bytes after the chunks 01 02 03 and 04 05 06 07 08. *)
Definition ring4_later : state :=
  mkState [[x05; x06; x07; x08]] (mkBuffer 0 0 4) 0.

Module Samples.
Import Js Api.

(** An axios response with [items] as the items of its data. *)
Definition with_items (items : value) : value :=
  Obj [("data", Obj [("items", items)])].

(** The reply to the look-up of a video of channel [ch]. *)
Definition video_of_channel : value :=
  Obj [("snippet", Obj [("channelId", Str "ch")])].

(** A rejection as axios gives it for a refused request. *)
Definition refused : value :=
  Obj [("message", Str "Request failed with status code 406");
       ("response", Obj [("status", Num 406)])].



Definition down : web :=
  mkWeb (Rejects refused) (Rejects refused) (Rejects refused)
    (Rejects refused).

(** A detection whose title is an empty list. *)
Definition untitled : value :=
  Obj [("data", Obj [("matches", Arr [Obj [("id", Str "1")]]);
                     ("track", Obj [("title", Arr [])])])].

Definition blank : web :=
  mkWeb (Fulfils untitled) (Rejects refused) (Rejects refused)
    (Rejects refused).

(** A search result whose id is a list with the one element [b]. *)
Definition listed_id : value :=
  Obj [("id", Obj [("videoId", Arr [Str "b"])]);
       ("snippet", Obj [("title", Str "B")])].

(** A reading of texts as numbers for replies that hold no text to read:
    the [matches] of the samples are arrays, whose [length] is a number. *)
Definition unread (v : value) : bool := false.

End Samples.

(** * Facts about lists *)

Section ListFacts.
Context {A : Type}.
Implicit Types l k : list A.

Local Open Scope nat_scope.

Lemma length_rotl w l : length (rotl w l) = length l.
Proof. unfold rotl. rewrite length_app, length_drop, length_take. lia. Qed.

Lemma length_rotr w l : length (rotr w l) = length l.
Proof. apply length_rotl. Qed.

Lemma rotl_0 l : rotl 0 l = l.
Proof. unfold rotl. rewrite drop_0, take_0. apply app_nil_r. Qed.

Lemma rotr_rotl w l : w ≤ length l → rotr w (rotl w l) = l.
Proof.
  intros Hw. unfold rotr. rewrite length_rotl. unfold rotl.
  rewrite drop_app_length', take_app_length' by (rewrite length_drop; lia).
  apply take_drop.
Qed.

Lemma rotl_rotr w l : w ≤ length l → rotl w (rotr w l) = l.
Proof.
  intros Hw. unfold rotr, rotl.
  rewrite drop_app_length', take_app_length'
    by (rewrite length_drop; lia).
  apply take_drop.
Qed.

(** Storing a block that fits replaces a segment. *)
Lemma list_inserts_fits i k l :
  i + length k ≤ length l →
  list_inserts i k l = take i l ++ k ++ drop (i + length k) l.
Proof.
  intros Hfit. apply list_eq. intros j.
  destruct (decide (j < i)) as [Hlt|Hge].
  - rewrite list_lookup_inserts_lt by done.
    rewrite lookup_app_l by (rewrite length_take; lia).
    by rewrite lookup_take_lt.
  - destruct (decide (j < i + length k)) as [Hin|Hout].
    + rewrite list_lookup_inserts by lia.
      rewrite lookup_app_r by (rewrite length_take; lia).
      rewrite length_take, lookup_app_l by lia. f_equal. lia.
    + rewrite list_lookup_inserts_ge by lia.
      rewrite lookup_app_r by (rewrite length_take; lia).
      rewrite lookup_app_r by (rewrite length_take; lia).
      rewrite lookup_drop, length_take. f_equal. lia.
Qed.

(** A block of the same length stored at the same place hides the first. *)
Lemma list_inserts_inserts i k k' l :
  length k = length k' →
  list_inserts i k' (list_inserts i k l) = list_inserts i k' l.
Proof.
  intros Hlen. apply list_eq. intros j.
  destruct (decide (j < length l)) as [Hj|Hj].
  - destruct (decide (j < i)).
    + by rewrite !list_lookup_inserts_lt.
    + destruct (decide (j < i + length k')).
      * rewrite !list_lookup_inserts; rewrite ?length_inserts; done || lia.
      * rewrite !list_lookup_inserts_ge; done || lia.
  - rewrite !lookup_ge_None_2; rewrite ?length_inserts; done || lia.
Qed.

(** Storing a segment of a list back where it came from changes nothing. *)
Lemma list_inserts_id i n l :
  list_inserts i (take n (drop i l)) l = l.
Proof.
  apply list_eq. intros j.
  destruct (decide (j < length l)) as [Hj|Hj].
  - destruct (decide (j < i)).
    + by rewrite list_lookup_inserts_lt.
    + destruct (decide (j < i + length (take n (drop i l)))) as [Hin|Hout].
      * rewrite list_lookup_inserts by lia.
        rewrite length_take, length_drop in Hin.
        rewrite lookup_take_lt, lookup_drop by lia. f_equal. lia.
      * by rewrite list_lookup_inserts_ge by lia.
  - rewrite !lookup_ge_None_2; rewrite ?length_inserts; done || lia.
Qed.

(** Two blocks stored one after the other over a whole list. *)
Lemma list_inserts_whole k l :
  length k = length l → list_inserts 0 k l = k.
Proof.
  intros Hlen. rewrite list_inserts_fits by lia.
  rewrite take_0, drop_ge by lia. apply app_nil_r.
Qed.

Lemma list_inserts_halves k1 k2 l :
  length k1 + length k2 = length l →
  list_inserts (length k1) k2 (list_inserts 0 k1 l) = k1 ++ k2.
Proof.
  intros Hlen. rewrite (list_inserts_fits 0) by lia. rewrite take_0. simpl.
  rewrite list_inserts_fits by (rewrite length_app, length_drop; lia).
  rewrite take_app_length, drop_ge, app_nil_r; [done|].
  rewrite length_app, length_drop. lia.
Qed.

(** A pass of the copy loop, seen through the reading from the write
    offset: the block goes to the end and as many bytes leave the front. *)
Lemma rotl_block w n l blk :
  length blk = n → 0 < length l → w + n ≤ length l →
  rotl ((w + n) mod length l) (take w l ++ blk ++ drop (w + n) l)
  = drop n (rotl w l ++ blk).
Proof.
  intros Hn Hpos Hfit. unfold rotl.
  rewrite (drop_app_le (drop w l ++ take w l) blk)
    by (rewrite length_app, length_drop, length_take; lia).
  rewrite (drop_app_le (drop w l) (take w l)) by (rewrite length_drop; lia).
  rewrite drop_drop, <- !(assoc_L (++)).
  destruct (decide (w + n = length l)) as [Heq|Hne].
  - rewrite Heq, Nat.Div0.mod_same, drop_0, take_0.
    rewrite (drop_ge l) by lia. by rewrite !app_nil_r.
  - rewrite Nat.mod_small by lia.
    rewrite !(assoc_L (++) (take w l) blk).
    rewrite drop_app_length', take_app_length'
      by (rewrite length_app, length_take; lia).
    done.
Qed.

Lemma take_drop_take m a n l :
  a + m ≤ n → take m (drop a (take n l)) = take m (drop a l).
Proof.
  intros. rewrite !take_drop_commute, take_take.
  by replace ((a + m) `min` n) with (a + m) by lia.
Qed.

(** Dropping from a stream in two goes. *)
Lemma drop_stream n m l k1 k2 :
  n ≤ length l + length k1 →
  drop m (drop n (l ++ k1) ++ k2) = drop (n + m) (l ++ k1 ++ k2).
Proof.
  intros Hn.
  rewrite <- (drop_app_le (l ++ k1) k2 n) by (rewrite length_app; lia).
  by rewrite drop_drop, <- (assoc_L (++)).
Qed.

End ListFacts.

(** * Facts about the store *)

(** Decide the comparisons of a guard. *)
Ltac cases_Z :=
  repeat match goal with
    | |- context [Z.ltb ?x ?y] => destruct (Z.ltb_spec x y); try lia
    | |- context [Z.leb ?x ?y] => destruct (Z.leb_spec x y); try lia
    | |- context [Z.eqb ?x ?y] => destruct (Z.eqb_spec x y); try lia
    | _ : context [Z.ltb ?x ?y] |- _ => destruct (Z.ltb_spec x y); try lia
    | _ : context [Z.leb ?x ?y] |- _ => destruct (Z.leb_spec x y); try lia
    | _ : context [Z.eqb ?x ?y] |- _ => destruct (Z.eqb_spec x y); try lia
    end; simpl.

Section StoreFacts.
Implicit Types (h : heap) (v blk : list byte).

Lemma length_contents h (b : Buffer) :
  valid h b → length (contents h b) = Z.to_nat (byteLength b).
Proof.
  intros (l & Hl & ? & ? & ?). unfold contents. rewrite Hl. simpl.
  rewrite length_take, length_drop. lia.
Qed.

Lemma length_poke h id at_ blk : length (poke h id at_ blk) = length h.
Proof. unfold poke. destruct (h !! id); [apply length_insert | done]. Qed.

Lemma lookup_poke_ne h id at_ blk j :
  id ≠ j → poke h id at_ blk !! j = h !! j.
Proof.
  intros Hne. unfold poke.
  destruct (h !! id); [by apply list_lookup_insert_ne | done].
Qed.

Lemma lookup_poke h id at_ blk l :
  h !! id = Some l →
  poke h id at_ blk !! id = Some (list_inserts (Z.to_nat at_) blk l).
Proof.
  intros Hl. unfold poke. rewrite Hl.
  apply list_lookup_insert_eq. by eapply lookup_lt_Some.
Qed.

Lemma valid_poke h id at_ blk (b : Buffer) :
  valid h b → valid (poke h id at_ blk) b.
Proof.
  intros (l & Hl & ? & ? & ?).
  destruct (decide (id = buffer b)) as [->|Hne].
  - eexists. split; [by apply lookup_poke|]. rewrite length_inserts. lia.
  - exists l. by rewrite lookup_poke_ne.
Qed.

(** Reading back what was stored over the whole view. *)
Lemma contents_poke h (b : Buffer) v :
  valid h b → length v = Z.to_nat (byteLength b) →
  contents (poke h (buffer b) (byteOffset b) v) b = v.
Proof.
  intros (l & Hl & ? & ? & ?) Hv. unfold contents.
  rewrite (lookup_poke _ _ _ _ l) by done. simpl.
  rewrite list_inserts_fits by lia.
  rewrite drop_app_length' by (rewrite length_take; lia).
  apply take_app_length'. lia.
Qed.

Lemma poke_poke h id at_ v v' :
  length v = length v' →
  poke (poke h id at_ v) id at_ v' = poke h id at_ v'.
Proof.
  intros Hlen. destruct (h !! id) as [l|] eqn:Hl.
  - unfold poke at 1. rewrite (lookup_poke _ _ _ _ l) by done.
    unfold poke. rewrite Hl.
    rewrite list_insert_insert_eq. by rewrite list_inserts_inserts.
  - unfold poke. rewrite Hl. by rewrite Hl.
Qed.

Lemma poke_contents h (b : Buffer) :
  poke h (buffer b) (byteOffset b) (contents h b) = h.
Proof.
  unfold poke, contents. destruct (h !! buffer b) as [l|] eqn:Hl; [|done].
  simpl. rewrite list_inserts_id. by apply list_insert_id.
Qed.

(** A store inside a view, described on what the view shows. *)
Lemma poke_within h (b : Buffer) (ts : Z) blk :
  valid h b → 0 ≤ ts → ts + Z.of_nat (length blk) ≤ byteLength b →
  poke h (buffer b) (byteOffset b + ts) blk
  = poke h (buffer b) (byteOffset b)
      (take (Z.to_nat ts) (contents h b) ++ blk
       ++ drop (Z.to_nat ts + length blk) (contents h b)).
Proof.
  intros (l & Hl & ? & ? & ?) Hts Hfit. unfold poke, contents.
  rewrite Hl. simpl. f_equal.
  set (off := Z.to_nat (byteOffset b)).
  set (len := Z.to_nat (byteLength b)).
  set (t := Z.to_nat ts).
  replace (Z.to_nat (byteOffset b + ts)) with (off + t)%nat by lia.
  assert (t + length blk ≤ len)%nat by lia.
  assert (off + len ≤ length l)%nat by lia.
  set (c := take len (drop off l)).
  assert (Hc : length c = len)
    by (subst c; rewrite length_take, length_drop; lia).
  rewrite (list_inserts_fits (off + t)) by lia.
  rewrite (list_inserts_fits off)
    by (rewrite !length_app, length_take, length_drop; lia).
  rewrite !length_app, length_take, length_drop, Hc.
  replace (off + (t `min` len + (length blk + (len - (t + length blk)))))%nat
    with (off + len)%nat by lia.
  subst c. rewrite take_take. replace (t `min` len)%nat with t by lia.
  rewrite <- !(assoc_L (++)), (assoc_L (++) (take off l)), take_take_drop.
  do 2 f_equal.
  rewrite <- (drop_drop l len off), drop_take_drop by lia.
  rewrite drop_drop. f_equal. lia.
Qed.

(** A view on part of a view shows that part. *)
Lemma contents_sub h (b : Buffer) (a m : Z) :
  0 ≤ byteOffset b → 0 ≤ a → 0 ≤ m → a + m ≤ byteLength b →
  contents h (mkBuffer (buffer b) (byteOffset b + a) m)
  = take (Z.to_nat m) (drop (Z.to_nat a) (contents h b)).
Proof.
  intros. unfold contents. simpl.
  rewrite take_drop_take, drop_drop by lia. do 2 f_equal. lia.
Qed.

(** Older buffers are not moved by an allocation. *)
Lemma contents_app h h' (b : Buffer) :
  valid h b → contents (h ++ h') b = contents h b.
Proof.
  intros (l & Hl & _). unfold contents.
  by rewrite (lookup_app_l_Some _ _ _ _ Hl), Hl.
Qed.

(** A store in the buffer allocated last. *)
Lemma poke_last h l at_ blk :
  poke (h ++ [l]) (length h) at_ blk
  = h ++ [list_inserts (Z.to_nat at_) blk l].
Proof.
  unfold poke. rewrite list_lookup_middle by done.
  by rewrite insert_app_r_alt, Nat.sub_diag by done.
Qed.

Lemma slice_from (b : Buffer) (w : Z) :
  0 ≤ w < byteLength b →
  slice b w None = mkBuffer (buffer b) (byteOffset b + w) (byteLength b - w).
Proof. intros. unfold slice, adjustOffset. cases_Z; f_equal; lia. Qed.

Lemma slice_upto (b : Buffer) (w : Z) :
  0 ≤ w < byteLength b →
  slice b 0 (Some w) = mkBuffer (buffer b) (byteOffset b + 0) w.
Proof. intros. unfold slice, adjustOffset. cases_Z; f_equal; lia. Qed.

(** [copy] of a block that lies in the source and fits the target. *)
Lemma copy_block src (target : Buffer) (ts ss n : Z) h :
  0 ≤ ts → 0 ≤ ss → 0 < n →
  ss + n ≤ Z.of_nat (length src) → ts + n ≤ byteLength target →
  copy src target ts ss (ss + n) h
  = Returns (poke h (buffer target) (byteOffset target + ts)
               (take (Z.to_nat n) (drop (Z.to_nat ss) src))).
Proof.
  intros. unfold copy.
  replace (byteLength target - ts <? ss + n - ss) with false
    by (symmetry; apply Z.ltb_ge; lia).
  cases_Z. do 3 f_equal. lia.
Qed.

(** [copy] of an empty range leaves the store alone. *)
Lemma copy_nothing src (target : Buffer) (ts : Z) h :
  0 ≤ ts → copy src target ts 0 0 h = Returns h.
Proof. intros. unfold copy. cases_Z; done. Qed.

End StoreFacts.

(** * Facts about the circular buffer *)

Section RingFacts.
Variable BUFFER_SIZE : Z.
Implicit Types (s : state) (chunk : list byte).

Lemma length_storage s :
  ring_ok BUFFER_SIZE s → length (storage s) = Z.to_nat BUFFER_SIZE.
Proof. intros (Hv & <- & _). by apply length_contents. Qed.

Lemma length_window s :
  ring_ok BUFFER_SIZE s → length (window s) = Z.to_nat BUFFER_SIZE.
Proof. intros. unfold window. rewrite length_rotl. by apply length_storage. Qed.

Lemma updates_refl s : updates s s.
Proof. split; [done|]. unfold storage. by rewrite poke_contents. Qed.

Lemma updates_trans s1 s2 s3 :
  length (storage s2) = length (storage s3) →
  updates s1 s2 → updates s2 s3 → updates s1 s3.
Proof.
  intros Hlen [Hb12 Hm12] [Hb23 Hm23]. split; [congruence|].
  rewrite Hm23, Hb12, Hm12. by apply poke_poke.
Qed.

(** A state is determined by the state it updates, its offset and its
    window. *)
Lemma updates_eq s s1 s2 :
  ring_ok BUFFER_SIZE s1 → ring_ok BUFFER_SIZE s2 →
  updates s s1 → updates s s2 →
  writeOffset s1 = writeOffset s2 → window s1 = window s2 →
  s1 = s2.
Proof.
  intros Hok1 Hok2 [Hb1 Hm1] [Hb2 Hm2] Hw Hwin.
  assert (storage s1 = storage s2) as Hst.
  { rewrite <- (rotr_rotl (Z.to_nat (writeOffset s1)) (storage s1)),
      <- (rotr_rotl (Z.to_nat (writeOffset s2)) (storage s2)).
    - unfold window in Hwin. by rewrite Hwin, Hw.
    - rewrite (length_storage s2 Hok2). destruct Hok2 as (_ & _ & ?). lia.
    - rewrite (length_storage s1 Hok1). destruct Hok1 as (_ & _ & ?). lia. }
  rewrite Hst, <- Hm2 in Hm1. rewrite <- Hb2 in Hb1.
  destruct s1, s2; simpl in *. congruence.
Qed.

(** One pass of the loop. *)
Lemma iteration_spec chunk (r k : Z) s :
  ring_ok BUFFER_SIZE s → 0 < r → 0 ≤ k →
  k + r = Z.of_nat (length chunk) →
  let n := Z.min (BUFFER_SIZE - writeOffset s) r in
  ∃ s', iteration BUFFER_SIZE chunk (mkLocals r k) s
        = Returns (mkLocals (r - n) (k + n), s')
    ∧ 1 ≤ n ≤ r
    ∧ ring_ok BUFFER_SIZE s'
    ∧ updates s s'
    ∧ writeOffset s' = (writeOffset s + n) `mod` BUFFER_SIZE
    ∧ window s'
      = drop (Z.to_nat n)
          (window s ++ take (Z.to_nat n) (drop (Z.to_nat k) chunk)).
Proof.
  intros Hok Hr Hk Hlen n.
  pose proof (length_storage s Hok) as Hst.
  destruct Hok as (Hv & Hcap & Hw).
  assert (1 ≤ n ≤ r) as Hn by lia.
  assert (n ≤ BUFFER_SIZE - writeOffset s) as Hn' by lia.
  set (blk := take (Z.to_nat n) (drop (Z.to_nat k) chunk)).
  assert (length blk = Z.to_nat n) as Hblk
    by (subst blk; rewrite length_take, length_drop; lia).
  unfold iteration. simpl. fold n.
  rewrite copy_block by lia. simpl. fold blk.
  rewrite poke_within by (done || lia). fold (storage s).
  set (st' := take (Z.to_nat (writeOffset s)) (storage s) ++ blk
              ++ drop (Z.to_nat (writeOffset s) + length blk) (storage s)).
  assert (length st' = Z.to_nat BUFFER_SIZE) as Hst'.
  { subst st'. rewrite !length_app, length_take, length_drop. lia. }
  eexists. split; [reflexivity|]. split; [done|].
  assert (storage (mkState (poke (mem s) (buffer (circularBuffer s))
                     (byteOffset (circularBuffer s)) st')
                   (circularBuffer s)
                   (Z.rem (writeOffset s + n) BUFFER_SIZE)) = st') as Hsto.
  { unfold storage. simpl. apply contents_poke; [done|lia]. }
  rewrite Z.rem_mod_nonneg by lia.
  split; [|split; [|split]].
  - split; [by apply valid_poke|]. split; [done|]. simpl.
    apply Z.mod_pos_bound. lia.
  - split; [done|]. simpl.
    rewrite Z.rem_mod_nonneg in Hsto by lia. by rewrite Hsto.
  - done.
  - unfold window. rewrite Z.rem_mod_nonneg in Hsto by lia.
    rewrite Hsto. simpl. subst st'.
    rewrite Z2Nat.inj_mod by lia.
    rewrite Z2Nat.inj_add by lia. rewrite <- Hst, Hblk.
    apply rotl_block; lia.
Qed.

(** The loop, from any point of a chunk: it returns within one pass per
    remaining byte, and the window takes the rest of the chunk in at its
    end and loses as many bytes at its front. *)
Lemma while_remaining_spec fuel : ∀ chunk (r k : Z) s,
  ring_ok BUFFER_SIZE s → 0 ≤ r → 0 ≤ k →
  k + r = Z.of_nat (length chunk) → (Z.to_nat r ≤ fuel)%nat →
  ∃ s', while_remaining BUFFER_SIZE fuel chunk (mkLocals r k) s = Returns s'
    ∧ ring_ok BUFFER_SIZE s'
    ∧ updates s s'
    ∧ writeOffset s' = (writeOffset s + r) `mod` BUFFER_SIZE
    ∧ window s' = drop (Z.to_nat r) (window s ++ drop (Z.to_nat k) chunk).
Proof.
  induction fuel as [|fuel IH]; intros chunk r k s Hok Hr Hk Hlen Hfuel.
  - assert (r = 0) as -> by lia. exists s. simpl.
    split; [done|]. split; [done|]. split; [apply updates_refl|].
    pose proof Hok as (_ & _ & ?). split.
    + rewrite Z.add_0_r, Z.mod_small; lia.
    + rewrite drop_0, drop_ge, app_nil_r by lia. done.
  - destruct (decide (r = 0)) as [->|Hne].
    + exists s. simpl.
      split; [done|]. split; [done|]. split; [apply updates_refl|].
      pose proof Hok as (_ & _ & ?). split.
      * rewrite Z.add_0_r, Z.mod_small; lia.
      * rewrite drop_0, drop_ge, app_nil_r by lia. done.
    + destruct (iteration_spec chunk r k s Hok) as
        (s1 & Hit & Hn & Hok1 & Hup1 & Hw1 & Hwin1); [lia..|].
      set (n := Z.min (BUFFER_SIZE - writeOffset s) r) in *.
      destruct (IH chunk (r - n) (k + n) s1) as
        (s' & Hrun & Hok' & Hup' & Hw' & Hwin'); [done|lia..|].
      exists s'. split.
      { cbn [while_remaining remaining].
        replace (0 <? r) with true by (symmetry; apply Z.ltb_lt; lia).
        rewrite Hit. exact Hrun. }
      split; [done|]. split.
      { eapply updates_trans; [|exact Hup1|exact Hup'].
        by rewrite (length_storage s1), (length_storage s'). }
      pose proof Hok as (_ & _ & ?). split.
      * rewrite Hw', Hw1, Z.add_mod_idemp_l by lia. f_equal. lia.
      * rewrite Hwin', Hwin1.
        rewrite drop_stream
          by (rewrite length_window, length_take, length_drop by done; lia).
        replace (Z.to_nat (k + n)) with (Z.to_nat k + Z.to_nat n)%nat by lia.
        rewrite <- (drop_drop chunk (Z.to_nat n) (Z.to_nat k)), take_drop. f_equal. lia.
Qed.

(** What a call of [writeChunkToCircularBuffer] does to a ring. *)
Lemma write_spec fuel chunk s :
  ring_ok BUFFER_SIZE s → (length chunk ≤ fuel)%nat →
  ∃ s', writeChunkToCircularBuffer BUFFER_SIZE fuel chunk s = Returns s'
    ∧ ring_ok BUFFER_SIZE s'
    ∧ updates s s'
    ∧ writeOffset s'
      = (writeOffset s + Z.of_nat (length chunk)) `mod` BUFFER_SIZE
    ∧ window s' = drop (length chunk) (window s ++ chunk).
Proof.
  intros Hok Hfuel. unfold writeChunkToCircularBuffer.
  destruct (while_remaining_spec fuel chunk (Z.of_nat (length chunk)) 0 s)
    as (s' & Hrun & Hok' & Hup & Hw & Hwin); [done|lia..|].
  exists s'. rewrite Nat2Z.id in Hwin. by rewrite drop_0 in Hwin.
Qed.

(** The same for the chunks of a stream. *)
Lemma feed_spec chunks : ∀ s,
  ring_ok BUFFER_SIZE s →
  ∃ s', feed BUFFER_SIZE chunks s = Returns s'
    ∧ ring_ok BUFFER_SIZE s'
    ∧ updates s s'
    ∧ writeOffset s'
      = (writeOffset s + Z.of_nat (length (concat chunks)))
          `mod` BUFFER_SIZE
    ∧ window s' = drop (length (concat chunks)) (window s ++ concat chunks).
Proof.
  induction chunks as [|chunk chunks IH]; intros s Hok.
  - exists s. simpl. split; [done|]. split; [done|].
    split; [apply updates_refl|]. pose proof Hok as (_ & _ & ?). split.
    + rewrite Z.add_0_r, Z.mod_small; lia.
    + by rewrite drop_0, app_nil_r.
  - destruct (write_spec (length chunk) chunk s Hok) as
      (s1 & Hrun1 & Hok1 & Hup1 & Hw1 & Hwin1); [done|].
    destruct (IH s1 Hok1) as (s' & Hrun & Hok' & Hup' & Hw' & Hwin').
    exists s'. split.
    { simpl. unfold on_data. rewrite Hrun1. exact Hrun. }
    split; [done|]. split.
    { eapply updates_trans; [|exact Hup1|exact Hup'].
      by rewrite (length_storage s1), (length_storage s'). }
    pose proof Hok as (_ & _ & ?). simpl. rewrite length_app. split.
    + rewrite Hw', Hw1, Z.add_mod_idemp_l by lia. f_equal. lia.
    + rewrite Hwin', Hwin1. apply drop_stream. lia.
Qed.

(** The start-up state. *)
Lemma init_spec :
  0 < BUFFER_SIZE →
  let s0 := mkState [replicate (Z.to_nat BUFFER_SIZE) x00]
              (mkBuffer 0 0 BUFFER_SIZE) 0 in
  init BUFFER_SIZE = Returns s0
  ∧ ring_ok BUFFER_SIZE s0
  ∧ window s0 = replicate (Z.to_nat BUFFER_SIZE) x00.
Proof.
  intros Hpos s0. split; [|split].
  - unfold init, alloc. by cases_Z.
  - split; [|simpl; lia]. eexists. split; [done|]. simpl.
    rewrite length_replicate. lia.
  - unfold window, storage, contents. simpl.
    rewrite rotl_0. apply take_ge. rewrite length_replicate. lia.
Qed.

(** What [getSnapshot] does: one more [ArrayBuffer], holding the window,
    and nothing else changed. *)
Lemma getSnapshot_spec s :
  ring_ok BUFFER_SIZE s →
  getSnapshot BUFFER_SIZE s
  = Returns (mkBuffer (length (mem s)) 0 BUFFER_SIZE,
             mkState (mem s ++ [window s])
               (circularBuffer s) (writeOffset s)).
Proof.
  intros Hok. pose proof (length_storage s Hok) as Hst.
  destruct Hok as (Hv & Hcap & Hw).
  set (w := Z.to_nat (writeOffset s)).
  unfold getSnapshot, alloc.
  replace (BUFFER_SIZE <? 0) with false by (symmetry; apply Z.ltb_ge; lia).
  cbn [mbind outcome_bind].
  rewrite slice_from, slice_upto by lia.
  destruct Hv as (l & Hl & Hoff & Hlen & Hin).
  assert (valid (mem s) (circularBuffer s)) as Hv by (exists l; done).
  rewrite contents_app by (exists l; simpl; split; [done|lia]).
  rewrite contents_sub by lia. fold (storage s).
  replace (Z.to_nat (byteLength (circularBuffer s) - writeOffset s))
    with (length (drop w (storage s))) by (rewrite length_drop; lia).
  fold w. rewrite firstn_all.
  assert (length (drop w (storage s)) = Z.to_nat BUFFER_SIZE - w)%nat
    as Hend by (rewrite length_drop; lia).
  replace (Z.of_nat (length (drop w (storage s))))
    with (0 + Z.of_nat (length (drop w (storage s)))) at 1 by lia.
  rewrite copy_block by (simpl; lia).
  cbn [mbind outcome_bind buffer byteOffset byteLength].
  rewrite Nat2Z.id, drop_0, firstn_all, poke_last. simpl Z.to_nat.
  rewrite contents_app by (exists l; simpl; split; [done|lia]).
  rewrite contents_sub by lia. fold (storage s). fold w. rewrite drop_0.
  destruct (decide (writeOffset s = 0)) as [Hw0|Hw0].
  - assert (w = 0%nat) as -> by lia. rewrite take_0 in *. rewrite drop_0 in *.
    simpl length. rewrite copy_nothing by lia.
    cbn [mbind outcome_bind mret outcome_ret].
    rewrite list_inserts_whole by (rewrite length_replicate; lia).
    unfold window. replace (Z.to_nat (writeOffset s)) with 0%nat by lia.
    by rewrite rotl_0.
  - assert (length (take w (storage s)) = w) as Hstart
      by (rewrite length_take; lia).
    replace (Z.of_nat (length (take w (storage s))))
      with (0 + Z.of_nat (length (take w (storage s)))) at 1 by lia.
    rewrite copy_block by (simpl; lia).
    cbn [mbind outcome_bind mret outcome_ret buffer byteOffset byteLength].
    rewrite Nat2Z.id, drop_0, firstn_all, poke_last.
    replace (Z.to_nat (0 + (byteLength (circularBuffer s) - writeOffset s)))
      with (length (drop w (storage s))) by lia.
    rewrite list_inserts_halves by (rewrite length_replicate; lia).
    done.
Qed.

Lemma snapshot_bytes_spec s :
  ring_ok BUFFER_SIZE s →
  snapshot_bytes BUFFER_SIZE s = Returns (window s).
Proof.
  intros Hok. unfold snapshot_bytes. rewrite getSnapshot_spec by done.
  simpl. unfold mret, outcome_ret. f_equal.
  unfold contents. simpl. rewrite list_lookup_middle by done. simpl.
  apply take_ge. rewrite (length_window s Hok). lia.
Qed.

Lemma run_spec chunks :
  0 < BUFFER_SIZE →
  run BUFFER_SIZE chunks
  = Returns (drop (length (concat chunks))
               (replicate (Z.to_nat BUFFER_SIZE) x00 ++ concat chunks)).
Proof.
  intros Hpos. destruct (init_spec Hpos) as (Hinit & Hok0 & Hwin0).
  unfold run. rewrite Hinit. simpl.
  destruct (feed_spec chunks _ Hok0) as (s & Hrun & Hok & _ & _ & Hwin).
  rewrite Hrun. simpl. rewrite snapshot_bytes_spec by done.
  by rewrite Hwin, Hwin0.
Qed.

Lemma valid_app (h h' : list (list byte)) (b : Buffer) :
  valid h b → valid (h ++ h') b.
Proof.
  intros (l & Hl & ?). exists l. by rewrite (lookup_app_l_Some _ _ _ _ Hl).
Qed.

Lemma same_ring_refl s : same_ring s s.
Proof. done. Qed.

Lemma same_ring_trans s1 s2 s3 :
  same_ring s1 s2 → same_ring s2 s3 → same_ring s1 s3.
Proof. intros (? & ? & ?) (? & ? & ?). repeat split; congruence. Qed.

Lemma same_ring_window s s' : same_ring s s' → window s' = window s.
Proof. intros (_ & Hw & Hst). unfold window. by rewrite Hw, Hst. Qed.

(** A ring is given by its offset and its window. *)
Lemma same_ring_by_window s s' :
  ring_ok BUFFER_SIZE s → ring_ok BUFFER_SIZE s' →
  circularBuffer s' = circularBuffer s →
  writeOffset s' = writeOffset s → window s' = window s →
  same_ring s s'.
Proof.
  intros Hok Hok' Hb Hw Hwin. split; [done|]. split; [done|].
  rewrite <- (rotr_rotl (Z.to_nat (writeOffset s)) (storage s)),
    <- (rotr_rotl (Z.to_nat (writeOffset s')) (storage s')).
  - unfold window in Hwin. by rewrite Hwin, Hw.
  - rewrite (length_storage s' Hok'). destruct Hok' as (_ & _ & ?). lia.
  - rewrite (length_storage s Hok). destruct Hok as (_ & _ & ?). lia.
Qed.

(** [getSnapshot] keeps the ring and every buffer there was. *)
Lemma getSnapshot_keeps s snapshot s' :
  ring_ok BUFFER_SIZE s →
  getSnapshot BUFFER_SIZE s = Returns (snapshot, s') →
  ring_ok BUFFER_SIZE s' ∧ same_ring s s'
  ∧ (∀ id l, mem s !! id = Some l → mem s' !! id = Some l).
Proof.
  intros Hok Hrun. rewrite getSnapshot_spec in Hrun by done.
  injection Hrun as <- <-. pose proof Hok as (Hv & Hcap & Hw).
  split; [|split].
  - split; [by apply valid_app|done].
  - split; [done|]. split; [done|]. unfold storage. simpl.
    by apply contents_app.
  - intros id l Hl. simpl. by rewrite (lookup_app_l_Some _ _ _ _ Hl).
Qed.

Lemma snapshots_keep n : ∀ s,
  ring_ok BUFFER_SIZE s →
  ∃ s', snapshots BUFFER_SIZE n s = Returns s'
    ∧ ring_ok BUFFER_SIZE s' ∧ same_ring s s'
    ∧ (∀ id l, mem s !! id = Some l → mem s' !! id = Some l).
Proof.
  induction n as [|n IH]; intros s Hok.
  - exists s. simpl. split; [done|]. split; [done|]. split; [done|]. auto.
  - pose proof (getSnapshot_spec s Hok) as Hrun.
    destruct (getSnapshot_keeps _ _ _ Hok Hrun) as (Hok1 & Hsame1 & Hfr1).
    destruct (IH _ Hok1) as (s' & Hrun' & Hok' & Hsame' & Hfr').
    exists s'. split; [simpl; by rewrite Hrun|]. split; [done|].
    split; [by eapply same_ring_trans|]. auto.
Qed.

(** The handler does the same to two states with the same ring. *)
Lemma on_data_same_ring chunk s s' :
  ring_ok BUFFER_SIZE s → ring_ok BUFFER_SIZE s' → same_ring s s' →
  ∃ u u', on_data BUFFER_SIZE chunk s = Returns u
    ∧ on_data BUFFER_SIZE chunk s' = Returns u'
    ∧ same_ring u u'.
Proof.
  intros Hok Hok' Hsame. unfold on_data.
  destruct (write_spec (length chunk) chunk s Hok)
    as (u & Hrun & Hoku & [Hbu _] & Hwu & Hwinu); [done|].
  destruct (write_spec (length chunk) chunk s' Hok')
    as (u' & Hrun' & Hoku' & [Hbu' _] & Hwu' & Hwinu'); [done|].
  exists u, u'. split; [done|]. split; [done|].
  pose proof (same_ring_window _ _ Hsame) as Hwin.
  destruct Hsame as (Hb & Hw & _).
  apply same_ring_by_window; try done; congruence.
Qed.

End RingFacts.

(** The ring of the script itself: 4 s of 44.1 kHz mono 16-bit samples. *)
Lemma script_ring :
  Settings.BUFFER_SIZE = 352800
  ∧ ∃ s0, init Settings.BUFFER_SIZE = Returns s0
          ∧ ring_ok Settings.BUFFER_SIZE s0.
Proof.
  split; [reflexivity|].
  assert (0 < Settings.BUFFER_SIZE) as Hpos by reflexivity.
  destruct (init_spec Settings.BUFFER_SIZE Hpos) as (Hinit & Hok & _).
  eauto.
Qed.

(** The scenario of the specification with a ring of four bytes: 01 02 03,
    then 04 05 06 07. *)
Example two_chunks_in_four_bytes :
  (s0 ← init 4;
   s ← feed 4 [[x01; x02; x03]; [x04; x05; x06; x07]] s0;
   bytes ← snapshot_bytes 4 s;
   mret (writeOffset s, storage s, bytes))
  = Returns (3, [x05; x06; x07; x04], [x04; x05; x06; x07]).
Proof. reflexivity. Qed.

(** * The properties of the circular buffer *)

(** Discharge the ring invariant of a concrete state. *)
Ltac ring_ok_by_evaluation :=
  split; [eexists; split; [reflexivity|simpl; lia]
         |split; [reflexivity|simpl; lia]].

Section RingProperties.
Variable BUFFER_SIZE : Z.
Implicit Types (s : state) (chunk : list byte).

(** C1: on every state that satisfies the ring invariant, [getSnapshot]
    returns a buffer that was not allocated before, of exactly
    [BUFFER_SIZE] bytes, showing [storage[writeOffset:]] followed by
    [storage[:writeOffset]]; nothing is asked about how much was written. *)
Theorem getSnapshot_linearises s :
  ring_ok BUFFER_SIZE s →
  ∃ snapshot s',
    getSnapshot BUFFER_SIZE s = Returns (snapshot, s')
    ∧ mem s !! buffer snapshot = None
    ∧ valid (mem s') snapshot
    ∧ byteLength snapshot = BUFFER_SIZE
    ∧ length (contents (mem s') snapshot) = Z.to_nat BUFFER_SIZE
    ∧ contents (mem s') snapshot
      = drop (Z.to_nat (writeOffset s)) (storage s)
        ++ take (Z.to_nat (writeOffset s)) (storage s).
Proof.
  intros Hok. pose proof (length_window _ s Hok) as Hlen.
  pose proof Hok as (_ & _ & ?).
  eexists _, _. split; [by apply getSnapshot_spec|]. simpl.
  assert (contents (mem s ++ [window s])
            (mkBuffer (length (mem s)) 0 BUFFER_SIZE) = window s) as Hc.
  { unfold contents. simpl. rewrite list_lookup_middle by done. simpl.
    apply take_ge. lia. }
  split; [by apply lookup_ge_None_2|]. split.
  { exists (window s). simpl. rewrite list_lookup_middle by done.
    split; [done|]. lia. }
  split; [done|]. rewrite Hc. done.
Qed.

(** C2: after a call on a chunk of any length the write offset is
    [(writeOffset + len(chunk)) mod BUFFER_SIZE]; a chunk whose length is a
    multiple of [BUFFER_SIZE] leaves it where it was. *)
Theorem write_advances_offset fuel chunk s :
  ring_ok BUFFER_SIZE s → (length chunk ≤ fuel)%nat →
  ∃ s', writeChunkToCircularBuffer BUFFER_SIZE fuel chunk s = Returns s'
    ∧ writeOffset s'
      = (writeOffset s + Z.of_nat (length chunk)) `mod` BUFFER_SIZE
    ∧ ((BUFFER_SIZE | Z.of_nat (length chunk)) →
       writeOffset s' = writeOffset s).
Proof.
  intros Hok Hfuel.
  destruct (write_spec _ fuel chunk s Hok Hfuel)
    as (s' & Hrun & _ & _ & Hw & _).
  exists s'. split; [done|]. split; [done|].
  intros [m Hm]. pose proof Hok as (_ & _ & ?).
  rewrite Hw, Hm, Z.mod_add by lia. apply Z.mod_small. lia.
Qed.

(** C3: two ways of cutting one byte stream into chunks leave the ring in
    the same state, so every later snapshot is the same; and a call on
    [a ++ b] does what a call on [a] followed by a call on [b] does. *)
Theorem chunking_invariance s :
  ring_ok BUFFER_SIZE s →
  (∀ chunks1 chunks2,
      concat chunks1 = concat chunks2 →
      ∃ s', feed BUFFER_SIZE chunks1 s = Returns s'
            ∧ feed BUFFER_SIZE chunks2 s = Returns s')
  ∧ (∀ a b,
      on_data BUFFER_SIZE (a ++ b) s
      = (s1 ← on_data BUFFER_SIZE a s; on_data BUFFER_SIZE b s1)).
Proof.
  intros Hok.
  assert (∀ chunks1 chunks2,
      concat chunks1 = concat chunks2 →
      ∃ s', feed BUFFER_SIZE chunks1 s = Returns s'
            ∧ feed BUFFER_SIZE chunks2 s = Returns s') as Hfeed.
  { intros chunks1 chunks2 Heq.
    destruct (feed_spec _ chunks1 s Hok)
      as (s1 & Hrun1 & Hok1 & Hup1 & Hw1 & Hwin1).
    destruct (feed_spec _ chunks2 s Hok)
      as (s2 & Hrun2 & Hok2 & Hup2 & Hw2 & Hwin2).
    exists s1. split; [done|]. rewrite Hrun2. f_equal.
    apply (updates_eq BUFFER_SIZE s); try done; congruence. }
  split; [done|]. intros a b.
  destruct (Hfeed [a ++ b] [a; b]) as (s' & H1 & H2).
  { simpl. by rewrite !app_nil_r. }
  simpl in H1, H2.
  destruct (on_data BUFFER_SIZE (a ++ b) s) as [s1| |]; try done.
  simpl in H1. rewrite H1.
  destruct (on_data BUFFER_SIZE a s) as [sa| |]; try done. simpl in *.
  destruct (on_data BUFFER_SIZE b sa) as [sb| |]; try done.
Qed.

(** C4: from start-up, when the chunks received add up to exactly
    [BUFFER_SIZE] bytes, the snapshot is their concatenation in arrival
    order. *)
Theorem exact_fill_identity chunks :
  0 < BUFFER_SIZE →
  length (concat chunks) = Z.to_nat BUFFER_SIZE →
  run BUFFER_SIZE chunks = Returns (concat chunks).
Proof.
  intros Hpos Hlen. rewrite run_spec by done. f_equal.
  apply drop_app_length'. by rewrite length_replicate.
Qed.

(** C5: from start-up, while fewer than [BUFFER_SIZE] bytes have been
    received, the snapshot is returned all the same and is
    [BUFFER_SIZE - written] zero bytes followed by the bytes received. *)
Theorem cold_buffer_prefix chunks :
  0 < BUFFER_SIZE →
  (length (concat chunks) < Z.to_nat BUFFER_SIZE)%nat →
  run BUFFER_SIZE chunks
  = Returns (replicate (Z.to_nat BUFFER_SIZE - length (concat chunks)) x00
             ++ concat chunks).
Proof.
  intros Hpos Hlen. rewrite run_spec by done. f_equal.
  rewrite drop_app_le by (rewrite length_replicate; lia).
  by rewrite drop_replicate.
Qed.

(** C8: [0 <= writeOffset < BUFFER_SIZE] holds at start-up, every call of
    [writeChunkToCircularBuffer] keeps it (with the rest of the ring
    invariant) whatever the length of the chunk, and so it holds after any
    stream, however many bytes that stream has. *)
Theorem writeOffset_in_range :
  0 < BUFFER_SIZE →
  (∃ s0, init BUFFER_SIZE = Returns s0
         ∧ ring_ok BUFFER_SIZE s0 ∧ 0 ≤ writeOffset s0 < BUFFER_SIZE)
  ∧ (∀ fuel chunk s,
        ring_ok BUFFER_SIZE s → (length chunk ≤ fuel)%nat →
        ∃ s', writeChunkToCircularBuffer BUFFER_SIZE fuel chunk s = Returns s'
              ∧ ring_ok BUFFER_SIZE s' ∧ 0 ≤ writeOffset s' < BUFFER_SIZE)
  ∧ (∀ chunks,
        ∃ s, (s0 ← init BUFFER_SIZE; feed BUFFER_SIZE chunks s0) = Returns s
             ∧ ring_ok BUFFER_SIZE s ∧ 0 ≤ writeOffset s < BUFFER_SIZE).
Proof.
  intros Hpos. destruct (init_spec _ Hpos) as (Hinit & Hok0 & _).
  split; [|split].
  - eexists. split; [exact Hinit|]. split; [done|]. apply Hok0.
  - intros fuel chunk s Hok Hfuel.
    destruct (write_spec _ fuel chunk s Hok Hfuel) as (s' & Hrun & Hok' & _).
    exists s'. split; [done|]. split; [done|]. apply Hok'.
  - intros chunks. rewrite Hinit. simpl.
    destruct (feed_spec _ chunks _ Hok0) as (s & Hrun & Hok & _).
    exists s. split; [done|]. split; [done|]. apply Hok.
Qed.

(** C9: [getSnapshot] changes neither [circularBuffer], nor [writeOffset],
    nor any byte of a buffer that existed, and the buffer it returns is a
    new one.  So after any number of calls the ring is the same, a further
    snapshot shows the same bytes, a further chunk has the same effect, and
    a chunk written after a snapshot leaves the bytes of that snapshot
    alone. *)
Theorem getSnapshot_frame n s :
  ring_ok BUFFER_SIZE s →
  ∃ s', snapshots BUFFER_SIZE n s = Returns s'
    ∧ same_ring s s'
    ∧ (∀ id l, mem s !! id = Some l → mem s' !! id = Some l)
    ∧ snapshot_bytes BUFFER_SIZE s' = snapshot_bytes BUFFER_SIZE s
    ∧ (∀ chunk, ∃ u u',
          on_data BUFFER_SIZE chunk s = Returns u
          ∧ on_data BUFFER_SIZE chunk s' = Returns u'
          ∧ same_ring u u')
    ∧ (∀ chunk, ∃ snapshot t u,
          getSnapshot BUFFER_SIZE s' = Returns (snapshot, t)
          ∧ mem s' !! buffer snapshot = None
          ∧ on_data BUFFER_SIZE chunk t = Returns u
          ∧ contents (mem u) snapshot = contents (mem t) snapshot).
Proof.
  intros Hok.
  destruct (snapshots_keep _ n s Hok) as (s' & Hrun & Hok' & Hsame & Hfr).
  exists s'. split; [done|]. split; [done|]. split; [done|].
  split; [|split].
  - rewrite !snapshot_bytes_spec by done. f_equal.
    by apply same_ring_window.
  - intros chunk. by apply on_data_same_ring.
  - intros chunk. pose proof (getSnapshot_spec _ s' Hok') as Hsnap.
    destruct (getSnapshot_keeps _ _ _ _ Hok' Hsnap) as (Hokt & _ & _).
    destruct (write_spec _ (length chunk) chunk _ Hokt)
      as (u & Hwr & _ & [_ Hmem] & _); [done|].
    eexists _, _, u. split; [exact Hsnap|].
    split; [by apply lookup_ge_None_2|]. split; [exact Hwr|].
    unfold contents. rewrite Hmem. cbn [buffer mem circularBuffer].
    rewrite lookup_poke_ne; [done|].
    destruct Hok' as ((l & Hl & _) & _).
    apply lookup_lt_Some in Hl. lia.
Qed.

(** C10: on a ring that satisfies the invariant a pass of the loop copies
    [min(BUFFER_SIZE - writeOffset, remaining) >= 1] bytes, so [remaining]
    goes strictly down and stays non-negative, and the loop returns within
    one pass per remaining byte; more passes allowed change nothing. *)
Theorem while_remaining_terminates chunk s :
  ring_ok BUFFER_SIZE s →
  (∀ r k, 0 < r → 0 ≤ k → k + r = Z.of_nat (length chunk) →
      ∃ v' s', iteration BUFFER_SIZE chunk (mkLocals r k) s = Returns (v', s')
        ∧ r - remaining v' = Z.min (BUFFER_SIZE - writeOffset s) r
        ∧ 1 ≤ r - remaining v'
        ∧ 0 ≤ remaining v' < r
        ∧ ring_ok BUFFER_SIZE s')
  ∧ (∀ fuel r k, 0 ≤ r → 0 ≤ k → k + r = Z.of_nat (length chunk) →
      (Z.to_nat r ≤ fuel)%nat →
      ∃ s', while_remaining BUFFER_SIZE fuel chunk (mkLocals r k) s
            = Returns s')
  ∧ (∀ fuel, (length chunk ≤ fuel)%nat →
      ∃ s', writeChunkToCircularBuffer BUFFER_SIZE fuel chunk s = Returns s'
            ∧ on_data BUFFER_SIZE chunk s = Returns s').
Proof.
  intros Hok. split; [|split].
  - intros r k Hr Hk Hlen.
    destruct (iteration_spec _ chunk r k s Hok Hr Hk Hlen)
      as (s' & Hit & Hn & Hok' & _).
    eexists _, s'. split; [exact Hit|]. simpl.
    split; [lia|]. split; [lia|]. split; [lia|done].
  - intros fuel r k Hr Hk Hlen Hfuel.
    destruct (while_remaining_spec _ fuel chunk r k s Hok Hr Hk Hlen Hfuel)
      as (s' & Hrun & _).
    by exists s'.
  - intros fuel Hfuel.
    destruct (write_spec _ fuel chunk s Hok Hfuel)
      as (s1 & Hrun1 & Hok1 & Hup1 & Hw1 & Hwin1).
    destruct (write_spec _ (length chunk) chunk s Hok)
      as (s2 & Hrun2 & Hok2 & Hup2 & Hw2 & Hwin2); [done|].
    exists s1. split; [done|]. unfold on_data. rewrite Hrun2. f_equal.
    apply (updates_eq BUFFER_SIZE s); try done; congruence.
Qed.

End RingProperties.

(** C6: a chunk at least as long as the ring leaves exactly its last
    [BUFFER_SIZE] bytes, in order, whatever the ring held; with a ring of 6
    bytes, one chunk 01 .. 09 after start-up gives the snapshot 04 .. 09. *)
Theorem long_chunk_keeps_tail :
  (∀ BUFFER_SIZE fuel chunk s,
      ring_ok BUFFER_SIZE s →
      (Z.to_nat BUFFER_SIZE ≤ length chunk)%nat → (length chunk ≤ fuel)%nat →
      (s' ← writeChunkToCircularBuffer BUFFER_SIZE fuel chunk s;
       snapshot_bytes BUFFER_SIZE s')
      = Returns (drop (length chunk - Z.to_nat BUFFER_SIZE) chunk))
  ∧ run 6 [[x01; x02; x03; x04; x05; x06; x07; x08; x09]]
    = Returns [x04; x05; x06; x07; x08; x09].
Proof.
  split; [|reflexivity].
  intros BUFFER_SIZE fuel chunk s Hok Hlong Hfuel.
  destruct (write_spec _ fuel chunk s Hok Hfuel)
    as (s' & Hrun & Hok' & _ & _ & Hwin).
  rewrite Hrun. simpl. rewrite snapshot_bytes_spec by done. f_equal.
  pose proof (length_window BUFFER_SIZE s Hok) as Hlen.
  rewrite Hwin, drop_app_ge by lia. by rewrite Hlen.
Qed.


(** ** The properties at work on a ring of four bytes *)

Lemma getSnapshot_linearises_witness :
  ∃ snapshot s',
    getSnapshot 4 ring4 = Returns (snapshot, s')
    ∧ mem ring4 !! buffer snapshot = None
    ∧ valid (mem s') snapshot
    ∧ byteLength snapshot = 4
    ∧ length (contents (mem s') snapshot) = Z.to_nat 4
    ∧ contents (mem s') snapshot
      = drop (Z.to_nat (writeOffset ring4)) (storage ring4)
        ++ take (Z.to_nat (writeOffset ring4)) (storage ring4).
Proof. apply (getSnapshot_linearises 4 ring4). ring_ok_by_evaluation. Defined.

Lemma write_advances_offset_witness :
  ∃ s', writeChunkToCircularBuffer 4 4 [x04; x05; x06; x07] ring4 = Returns s'
    ∧ writeOffset s' = (writeOffset ring4 + 4) `mod` 4
    ∧ ((4 | 4) → writeOffset s' = writeOffset ring4).
Proof.
  apply (write_advances_offset 4 4 [x04; x05; x06; x07] ring4).
  - ring_ok_by_evaluation.
  - simpl. lia.
Defined.

Lemma chunking_invariance_witness :
  (∀ chunks1 chunks2,
      concat chunks1 = concat chunks2 →
      ∃ s', feed 4 chunks1 ring4 = Returns s'
            ∧ feed 4 chunks2 ring4 = Returns s')
  ∧ (∀ a b,
      on_data 4 (a ++ b) ring4 = (s1 ← on_data 4 a ring4; on_data 4 b s1)).
Proof. apply (chunking_invariance 4 ring4). ring_ok_by_evaluation. Defined.

Lemma exact_fill_identity_witness :
  run 4 [[x01; x02; x03]; [x04]] = Returns [x01; x02; x03; x04].
Proof.
  apply (exact_fill_identity 4 [[x01; x02; x03]; [x04]]).
  - lia.
  - reflexivity.
Defined.

Lemma cold_buffer_prefix_witness :
  run 4 [[x01]; [x02]] = Returns [x00; x00; x01; x02].
Proof.
  apply (cold_buffer_prefix 4 [[x01]; [x02]]).
  - lia.
  - simpl. lia.
Defined.

Lemma long_chunk_keeps_tail_witness :
  (s' ← writeChunkToCircularBuffer 4 5 [x04; x05; x06; x07; x08] ring4;
   snapshot_bytes 4 s')
  = Returns [x05; x06; x07; x08].
Proof.
  apply (proj1 long_chunk_keeps_tail 4 5%nat [x04; x05; x06; x07; x08] ring4).
  - ring_ok_by_evaluation.
  - simpl. lia.
  - simpl. lia.
Defined.

Lemma writeOffset_in_range_witness :
  (∃ s0, init 4 = Returns s0 ∧ ring_ok 4 s0 ∧ 0 ≤ writeOffset s0 < 4)
  ∧ (∀ fuel chunk s,
        ring_ok 4 s → (length chunk ≤ fuel)%nat →
        ∃ s', writeChunkToCircularBuffer 4 fuel chunk s = Returns s'
              ∧ ring_ok 4 s' ∧ 0 ≤ writeOffset s' < 4)
  ∧ (∀ chunks,
        ∃ s, (s0 ← init 4; feed 4 chunks s0) = Returns s
             ∧ ring_ok 4 s ∧ 0 ≤ writeOffset s < 4).
Proof. apply (writeOffset_in_range 4). lia. Defined.

Lemma getSnapshot_frame_witness :
  ∃ s', snapshots 4 2 ring4 = Returns s'
    ∧ same_ring ring4 s'
    ∧ (∀ id l, mem ring4 !! id = Some l → mem s' !! id = Some l)
    ∧ snapshot_bytes 4 s' = snapshot_bytes 4 ring4
    ∧ (∀ chunk, ∃ u u',
          on_data 4 chunk ring4 = Returns u
          ∧ on_data 4 chunk s' = Returns u'
          ∧ same_ring u u')
    ∧ (∀ chunk, ∃ snapshot t u,
          getSnapshot 4 s' = Returns (snapshot, t)
          ∧ mem s' !! buffer snapshot = None
          ∧ on_data 4 chunk t = Returns u
          ∧ contents (mem u) snapshot = contents (mem t) snapshot).
Proof. apply (getSnapshot_frame 4 2 ring4). ring_ok_by_evaluation. Defined.

Lemma while_remaining_terminates_witness :
  (∀ r k, 0 < r → 0 ≤ k → k + r = 5 →
      ∃ v' s', iteration 4 [x04; x05; x06; x07; x08] (mkLocals r k) ring4
               = Returns (v', s')
        ∧ r - remaining v' = Z.min (4 - writeOffset ring4) r
        ∧ 1 ≤ r - remaining v'
        ∧ 0 ≤ remaining v' < r
        ∧ ring_ok 4 s')
  ∧ (∀ fuel r k, 0 ≤ r → 0 ≤ k → k + r = 5 →
      (Z.to_nat r ≤ fuel)%nat →
      ∃ s', while_remaining 4 fuel [x04; x05; x06; x07; x08] (mkLocals r k)
              ring4 = Returns s')
  ∧ (∀ fuel, (5 ≤ fuel)%nat →
      ∃ s', writeChunkToCircularBuffer 4 fuel [x04; x05; x06; x07; x08] ring4
            = Returns s'
            ∧ on_data 4 [x04; x05; x06; x07; x08] ring4 = Returns s').
Proof.
  apply (while_remaining_terminates 4 [x04; x05; x06; x07; x08] ring4).
  ring_ok_by_evaluation.
Defined.

(** * The properties of the orchestration *)

Module OrchestrationProperties.
Import Orchestration.

(** Run [main] symbolically, branching on the fate of each call met. *)
Ltac run_main w :=
  unfold Trace.exit_status, restorations, trace, main, try_finally,
    getCurrentInput, startContinuousRecording, assign_ffmpegProcess,
    stopRecording, switchInput, call, process_exit, emit, mbind,
    action_bind;
  repeat (simpl;
          match goal with
          | |- context [fate_of w ?p] => destruct (fate_of w p) eqn:?
          end);
  simpl.



(** Nor does an error while the capture is started save the restoration
    when the run ends in the [finally] block before the switch: the
    listeners could not be registered, [ffmpegProcess] was assigned, and
    the process goes no further than the [kill]. *)
Lemma listener_error_then_gone :
  trace (mkWorld "MacBook Pro Microphone"
           (fun p => match p with
                     | AttachListeners => Raises
                     | StopRecording => Killed
                     | _ => Completes
                     end))
  = [SwitchInput RouteInput BLACKHOLE_NAME true]
  ∧ trace (mkWorld "MacBook Pro Microphone"
             (fun p => match p with
                       | AttachListeners => Raises
                       | RestoreInput => Killed
                       | _ => Completes
                       end))
    = [SwitchInput RouteInput BLACKHOLE_NAME true; Kill].
Proof. split; reflexivity. Qed.

(** Nor is there anything to restore when the device utility is missing:
    [getCurrentInput] leaves with status 1 before any switch. *)
Lemma missing_utility_exits_first :
  trace (but_for GetCurrentInput Raises) = [Exit 1]
  ∧ restorations (but_for GetCurrentInput Raises) = 0%nat.
Proof. split; reflexivity. Qed.


End OrchestrationProperties.

(** * More about the circular buffer *)

Section RingLaws.
Variable BUFFER_SIZE : Z.
Implicit Types (s : state) (chunk : list byte).

(** Reading a rotated list by index. *)
Lemma lookup_rotl {A : Type} (w i : nat) (l : list A) :
  (w ≤ length l)%nat → (i < length l)%nat →
  rotl w l !! i = l !! ((w + i) mod length l)%nat.
Proof.
  intros Hw Hi. unfold rotl.
  destruct (decide (i < length l - w)%nat) as [Hlt|Hge].
  - rewrite lookup_app_l by (rewrite length_drop; lia).
    rewrite lookup_drop, Nat.mod_small by lia. done.
  - rewrite lookup_app_r by (rewrite length_drop; lia).
    rewrite length_drop, lookup_take_lt by lia. f_equal.
    replace (w + i)%nat with ((i - (length l - w)) + 1 * length l)%nat by lia.
    rewrite Nat.Div0.mod_add, Nat.mod_small by lia. done.
Qed.

(** What a cell of the ring holds, read off the window. *)
Lemma lookup_storage s (j : nat) :
  ring_ok BUFFER_SIZE s → (j < Z.to_nat BUFFER_SIZE)%nat →
  storage s !! j
  = window s !! Z.to_nat ((Z.of_nat j + BUFFER_SIZE - writeOffset s)
                            `mod` BUFFER_SIZE).
Proof.
  intros Hok Hj. pose proof (length_storage _ s Hok) as Hlen.
  pose proof (length_window _ s Hok) as Hlenw.
  pose proof Hok as (_ & _ & Hw).
  rewrite <- (rotr_rotl (Z.to_nat (writeOffset s)) (storage s)) at 1 by lia.
  fold (window s). unfold rotr. rewrite lookup_rotl by lia.
  f_equal. rewrite Hlenw.
  rewrite Z2Nat.inj_mod by lia. f_equal. lia.
Qed.

(** A loop that has returned returns the same with more passes allowed. *)
Lemma while_remaining_more_fuel fuel : ∀ fuel' chunk v s s',
  while_remaining BUFFER_SIZE fuel chunk v s = Returns s' →
  (fuel ≤ fuel')%nat →
  while_remaining BUFFER_SIZE fuel' chunk v s = Returns s'.
Proof.
  induction fuel as [|fuel IH]; intros fuel' chunk v s s' Hrun Hle.
  - destruct fuel'; simpl in *; destruct (0 <? remaining v); done.
  - destruct fuel' as [|fuel']; [lia|]. simpl in *.
    destruct (0 <? remaining v); [|done].
    destruct (iteration BUFFER_SIZE chunk v s) as [[v1 s1]| |]; try done.
    simpl in *. apply IH; [done|lia].
Qed.

(** The passes the loop makes: one up to the end of the ring, then one per
    lap. *)
Lemma while_remaining_passes fuel : ∀ chunk (r k : Z) s,
  ring_ok BUFFER_SIZE s → 0 ≤ r → 0 ≤ k →
  k + r = Z.of_nat (length chunk) →
  r = 0 ∨ ((1 ≤ fuel)%nat
           ∧ r ≤ BUFFER_SIZE - writeOffset s
                 + (Z.of_nat fuel - 1) * BUFFER_SIZE) →
  ∃ s', while_remaining BUFFER_SIZE fuel chunk (mkLocals r k) s = Returns s'.
Proof.
  induction fuel as [|fuel IH]; intros chunk r k s Hok Hr Hk Hlen Hbound.
  - destruct Hbound as [->|[? _]]; [|lia]. by exists s.
  - destruct (decide (r = 0)) as [->|Hne]; [by exists s|].
    destruct Hbound as [?|[_ Hbound]]; [done|].
    destruct (iteration_spec BUFFER_SIZE chunk r k s Hok) as
      (s1 & Hit & Hn & Hok1 & _ & Hw1 & _); [lia..|].
    set (n := Z.min (BUFFER_SIZE - writeOffset s) r) in *.
    pose proof Hok as (_ & _ & Hw).
    destruct (IH chunk (r - n) (k + n) s1) as (s' & Hrun); [done|lia..| |].
    { destruct (decide (r ≤ BUFFER_SIZE - writeOffset s)) as [Hfit|Hwrap].
      - left. lia.
      - right. assert (n = BUFFER_SIZE - writeOffset s) as Hn' by lia.
        assert (writeOffset s1 = 0) as Hw0.
        { rewrite Hw1, Hn'.
          replace (writeOffset s + (BUFFER_SIZE - writeOffset s))
            with BUFFER_SIZE by lia.
          apply Z.mod_same. lia. }
        rewrite Hw0. split; [|nia].
        destruct fuel; [|lia]. lia. }
    exists s'. cbn [while_remaining remaining].
    replace (0 <? r) with true by (symmetry; apply Z.ltb_lt; lia).
    rewrite Hit. exact Hrun.
Qed.

Lemma ring_index (c w n i : Z) :
  0 < c →
  ((w + i) `mod` c + c - (w + n) `mod` c) `mod` c = (i - n) `mod` c.
Proof.
  intros Hc. rewrite Zminus_mod_idemp_r.
  replace ((w + i) `mod` c + c - (w + n))
    with ((w + i) `mod` c + (c - (w + n))) by lia.
  rewrite Z.add_mod_idemp_l by lia.
  replace (w + i + (c - (w + n))) with (i - n + 1 * c) by lia.
  apply Z.mod_add. lia.
Qed.

(** X1: a snapshot taken after a call shows the last [BUFFER_SIZE] bytes of
    what a snapshot taken before it shows followed by the chunk: the ring is
    a sliding window over the stream. *)
Theorem snapshot_slides fuel chunk s :
  ring_ok BUFFER_SIZE s → (length chunk ≤ fuel)%nat →
  (s' ← writeChunkToCircularBuffer BUFFER_SIZE fuel chunk s;
   snapshot_bytes BUFFER_SIZE s')
  = (before ← snapshot_bytes BUFFER_SIZE s;
     mret (drop (length chunk) (before ++ chunk))).
Proof.
  intros Hok Hfuel.
  destruct (write_spec _ fuel chunk s Hok Hfuel)
    as (s' & Hrun & Hok' & _ & _ & Hwin).
  rewrite Hrun. simpl. rewrite !snapshot_bytes_spec by done. simpl.
  by rewrite Hwin.
Qed.

(** X2: once at least [BUFFER_SIZE] bytes have been received since start-up,
    the snapshot is exactly the last [BUFFER_SIZE] bytes received, however
    they were cut into chunks. *)
Theorem most_recent_window chunks :
  0 < BUFFER_SIZE →
  (Z.to_nat BUFFER_SIZE ≤ length (concat chunks))%nat →
  run BUFFER_SIZE chunks
  = Returns (drop (length (concat chunks) - Z.to_nat BUFFER_SIZE)
               (concat chunks)).
Proof.
  intros Hpos Hlen. rewrite run_spec by done. f_equal.
  rewrite drop_app_ge by (rewrite length_replicate; lia).
  by rewrite length_replicate.
Qed.

(** X3: a call allocates nothing, leaves every other [ArrayBuffer] as it
    was, and in the [ArrayBuffer] of [circularBuffer] changes no byte
    outside the view. *)
Theorem write_frame fuel chunk s :
  ring_ok BUFFER_SIZE s → (length chunk ≤ fuel)%nat →
  ∃ s', writeChunkToCircularBuffer BUFFER_SIZE fuel chunk s = Returns s'
    ∧ circularBuffer s' = circularBuffer s
    ∧ length (mem s') = length (mem s)
    ∧ (∀ id, id ≠ buffer (circularBuffer s) → mem s' !! id = mem s !! id)
    ∧ ∃ l l', mem s !! buffer (circularBuffer s) = Some l
        ∧ mem s' !! buffer (circularBuffer s) = Some l'
        ∧ length l' = length l
        ∧ take (Z.to_nat (byteOffset (circularBuffer s))) l'
          = take (Z.to_nat (byteOffset (circularBuffer s))) l
        ∧ drop (Z.to_nat (byteOffset (circularBuffer s) + BUFFER_SIZE)) l'
          = drop (Z.to_nat (byteOffset (circularBuffer s) + BUFFER_SIZE)) l.
Proof.
  intros Hok Hfuel.
  destruct (write_spec _ fuel chunk s Hok Hfuel)
    as (s' & Hrun & Hok' & [Hb Hmem] & _).
  pose proof (length_storage _ s' Hok') as Hlen.
  exists s'. split; [done|]. split; [done|]. rewrite Hmem.
  split; [apply length_poke|]. split; [intros id Hne; by apply lookup_poke_ne|].
  destruct Hok as ((l & Hl & Hoff & _ & Hin) & Hcap & Hw).
  exists l. eexists. split; [done|]. split; [by apply lookup_poke|].
  assert (Z.to_nat (byteOffset (circularBuffer s)) + length (storage s')
          ≤ length l)%nat by lia.
  split; [apply length_inserts|].
  rewrite list_inserts_fits by done. split.
  - apply take_app_length'. rewrite length_take. lia.
  - replace (Z.to_nat (byteOffset (circularBuffer s) + BUFFER_SIZE))
      with (Z.to_nat (byteOffset (circularBuffer s)) + length (storage s'))%nat
      by lia.
    rewrite (assoc_L (++)). apply drop_app_length'.
    rewrite length_app, length_take. lia.
Qed.

(** X4: the loop makes one pass up to the end of the ring and then one pass
    per lap, so [fuel] passes are enough for a chunk no longer than the room
    up to the end of the ring and [fuel - 1] laps; two passes are enough for
    any chunk no longer than the ring. *)
Theorem write_pass_bound chunk s :
  ring_ok BUFFER_SIZE s →
  (∀ fuel, (1 ≤ fuel)%nat →
      Z.of_nat (length chunk)
      ≤ BUFFER_SIZE - writeOffset s + (Z.of_nat fuel - 1) * BUFFER_SIZE →
      ∃ s', writeChunkToCircularBuffer BUFFER_SIZE fuel chunk s = Returns s'
            ∧ on_data BUFFER_SIZE chunk s = Returns s')
  ∧ (Z.of_nat (length chunk) ≤ BUFFER_SIZE →
      ∃ s', writeChunkToCircularBuffer BUFFER_SIZE 2 chunk s = Returns s'
            ∧ on_data BUFFER_SIZE chunk s = Returns s').
Proof.
  intros Hok.
  assert (∀ fuel, (1 ≤ fuel)%nat →
      Z.of_nat (length chunk)
      ≤ BUFFER_SIZE - writeOffset s + (Z.of_nat fuel - 1) * BUFFER_SIZE →
      ∃ s', writeChunkToCircularBuffer BUFFER_SIZE fuel chunk s = Returns s'
            ∧ on_data BUFFER_SIZE chunk s = Returns s') as Hgen.
  { intros fuel Hfuel Hbound. unfold on_data, writeChunkToCircularBuffer.
    destruct (while_remaining_passes fuel chunk (Z.of_nat (length chunk)) 0 s)
      as (s1 & Hrun1); [done|lia..| |].
    { right. done. }
    destruct (while_remaining_spec BUFFER_SIZE (length chunk) chunk
                (Z.of_nat (length chunk)) 0 s) as (s2 & Hrun2 & _);
      [done|lia..|].
    exists s1. split; [done|].
    pose proof (while_remaining_more_fuel _ (fuel `max` length chunk)%nat
                  _ _ _ _ Hrun1 ltac:(lia)) as H1.
    pose proof (while_remaining_more_fuel _ (fuel `max` length chunk)%nat
                  _ _ _ _ Hrun2 ltac:(lia)) as H2.
    rewrite Hrun2. congruence. }
  split; [done|]. intros Hfit. apply Hgen; [lia|].
  destruct Hok as (_ & _ & ?). lia.
Qed.

(** X5: where the bytes go.  Byte [i] of a chunk is stored in cell
    [(writeOffset + i) mod BUFFER_SIZE], and is still there after the call
    unless the chunk has [BUFFER_SIZE] or more bytes after it; the cells a
    short chunk does not reach keep their bytes. *)
Theorem write_cells fuel chunk s s' :
  ring_ok BUFFER_SIZE s → (length chunk ≤ fuel)%nat →
  writeChunkToCircularBuffer BUFFER_SIZE fuel chunk s = Returns s' →
  (∀ i : nat,
      (i < length chunk)%nat →
      Z.of_nat (length chunk) ≤ Z.of_nat i + BUFFER_SIZE →
      storage s' !! Z.to_nat ((writeOffset s + Z.of_nat i) `mod` BUFFER_SIZE)
      = chunk !! i)
  ∧ (∀ i : nat,
      (length chunk ≤ i)%nat → Z.of_nat i < BUFFER_SIZE →
      storage s' !! Z.to_nat ((writeOffset s + Z.of_nat i) `mod` BUFFER_SIZE)
      = storage s
          !! Z.to_nat ((writeOffset s + Z.of_nat i) `mod` BUFFER_SIZE)).
Proof.
  intros Hok Hfuel Hrun.
  destruct (write_spec _ fuel chunk s Hok Hfuel)
    as (s1 & Hrun1 & Hok' & _ & Hw' & Hwin).
  assert (s1 = s') as -> by congruence.
  pose proof (length_storage _ s Hok) as Hlen.
  pose proof (length_window _ s Hok) as Hlenw.
  pose proof Hok as (_ & _ & Hw).
  assert (∀ i : nat,
      storage s' !! Z.to_nat ((writeOffset s + Z.of_nat i) `mod` BUFFER_SIZE)
      = (window s ++ chunk)
          !! (length chunk
              + Z.to_nat ((Z.of_nat i - Z.of_nat (length chunk))
                            `mod` BUFFER_SIZE))%nat) as Hcell.
  { intros i.
    pose proof (Z.mod_pos_bound (writeOffset s + Z.of_nat i) BUFFER_SIZE).
    rewrite (lookup_storage s') by (done || lia).
    rewrite Z2Nat.id, Hw', ring_index, Hwin, lookup_drop by lia. done. }
  split.
  - intros i Hi Hlast. rewrite Hcell.
    replace (Z.of_nat i - Z.of_nat (length chunk))
      with (Z.of_nat i - Z.of_nat (length chunk) + BUFFER_SIZE
            + (-1) * BUFFER_SIZE) by lia.
    rewrite Z.mod_add, Z.mod_small by lia.
    rewrite lookup_app_r by lia. f_equal. lia.
  - intros i Hi Hcap. rewrite Hcell.
    rewrite Z.mod_small by lia.
    rewrite lookup_app_l by lia.
    replace (length chunk + Z.to_nat (Z.of_nat i - Z.of_nat (length chunk)))%nat
      with i by lia.
    unfold window. rewrite lookup_rotl by lia. f_equal.
    rewrite Hlen, Z2Nat.inj_mod by lia. f_equal. lia.
Qed.

End RingLaws.

(** * More about the orchestration *)

Module OrchestrationLaws.
Import Orchestration Trace.

Ltac run_main w :=
  unfold kills, exit_status, active_input, restorations, trace, main,
    try_finally, getCurrentInput, startContinuousRecording,
    assign_ffmpegProcess, stopRecording, switchInput, call, process_exit,
    emit, mbind, action_bind;
  repeat (simpl;
          match goal with
          | |- context [fate_of w ?p] => destruct (fate_of w p) eqn:?
          end);
  simpl.

Ltac all_points Hlive :=
  pose proof (Hlive RouteInput); pose proof (Hlive StartRecording);
  pose proof (Hlive AttachListeners);
  pose proof (Hlive WarmUp); pose proof (Hlive WaitForKeypress);
  pose proof (Hlive TakeSnapshot); pose proof (Hlive Recognize);
  pose proof (Hlive StopRecording); pose proof (Hlive RestoreInput);
  clear Hlive.

(** X6: when the run is not ended from outside and the restoring switch
    succeeds, the active input device at exit is the one found at the start,
    whatever happened in between; when the restoring switch fails after a
    routing that succeeded, the input stays on BlackHole. *)
Theorem input_round_trip (w : world) :
  fate_of w GetCurrentInput = Completes →
  (∀ p, fate_of w p ≠ Killed) →
  (fate_of w RestoreInput = Completes →
   active_input (currentInput w) (trace w) = currentInput w)
  ∧ (fate_of w RestoreInput = Raises → fate_of w RouteInput = Completes →
     active_input (currentInput w) (trace w) = BLACKHOLE_NAME).
Proof.
  intros Hquery Hlive. all_points Hlive.
  split; intros; run_main w; congruence.
Qed.

(** X7: the exit status tells only whether the device utility was found.
    When [getCurrentInput] fails the run is [process.exit(1)] and nothing
    else; otherwise, unless the process is ended from outside, the status is
    0, also when a call of the [try] block has raised. *)
Theorem exit_status_of_run (w : world) :
  (fate_of w GetCurrentInput = Raises → trace w = [Exit 1])
  ∧ (fate_of w GetCurrentInput = Completes →
     (∀ p, fate_of w p ≠ Killed) →
     exit_status (trace w) = Some 0).
Proof.
  split.
  - intros Hquery. unfold trace, main, getCurrentInput, mbind, action_bind.
    by rewrite Hquery.
  - intros Hquery Hlive. all_points Hlive. run_main w; congruence.
Qed.


End OrchestrationLaws.

(** * Recognition and the YouTube look-ups: what they throw, send and show *)

Module ApiLaws.
Import Js Api ApiSpec.

(** ** Operations on values *)

Lemma get_throws v k e : get v k = Throw e → e = TypeError.
Proof.
  destruct v; simpl; try discriminate; try congruence;
    destruct (String.eqb k "length"); discriminate.
Qed.

Lemma get_of_object v k : nullish v = false → ∃ x, get v k = Ok x.
Proof.
  destruct v; simpl; try discriminate; intros _; eauto;
    destruct (String.eqb k "length"); eauto.
Qed.

Lemma get_opt_throws v k e : get_opt v k = Throw e → False.
Proof.
  unfold get_opt. destruct (nullish v) eqn:Hv; [discriminate|].
  destruct (get_of_object v k Hv) as [x ->]. discriminate.
Qed.

Lemma get_opt_total v k : ∃ x, get_opt v k = Ok x.
Proof.
  unfold get_opt. destruct (nullish v) eqn:Hv; [eauto|].
  by apply get_of_object.
Qed.

Lemma first_throws v e : first v = Throw e → e = TypeError.
Proof.
  destruct v as [| | | |s| |]; simpl; try discriminate; try congruence.
  destruct s; discriminate.
Qed.

Lemma first_opt_throws v e : first_opt v = Throw e → False.
Proof.
  unfold first_opt. destruct v as [| | | |s| |]; simpl; try discriminate.
  destruct s; discriminate.
Qed.

Lemma gt_zero_throws positive v e :
  gt_zero positive v = Throw e → e = TypeError.
Proof.
  destruct v; simpl; try discriminate;
    match goal with |- context [if ?b then _ else _] => destruct b end;
    congruence.
Qed.

Lemma interpolate_throws v e : interpolate v = Throw e → e = TypeError.
Proof. unfold interpolate. destruct (stringifies v); congruence. Qed.

Lemma interpolate_ok v x : interpolate v = Ok x → x = v.
Proof. unfold interpolate. destruct (stringifies v); congruence. Qed.

Lemma interpolate_stringifies v x : interpolate v = Ok x → stringifies v = true.
Proof. unfold interpolate. by destruct (stringifies v). Qed.

Lemma strict_eq_false a b :
  strict_eq a b = false → primitive b = true → a ≠ b.
Proof.
  intros H Hb ->. destruct b; simpl in H, Hb; try discriminate.
  - by rewrite eqb_reflx in H.
  - by rewrite Z.eqb_refl in H.
  - by rewrite String.eqb_refl in H.
Qed.

Lemma strict_eq_number v n : strict_eq v (Num n) = true ↔ v = Num n.
Proof.
  destruct v; simpl; split; try done.
  - intros ->%Z.eqb_eq. done.
  - intros [= ->]. apply Z.eqb_refl.
Qed.


Lemma truthy_or_else a s :
  String.eqb s "" = false → truthy (or_else a (Str s)) = true.
Proof.
  intros Hs. unfold or_else. destruct (truthy a) eqn:Ha; [done|].
  simpl. by rewrite Hs.
Qed.

(** ** Programs *)

Section Behaves.
Context {A B : Type}.
Variables (P : thrown → Prop) (Q : event → Prop).

Lemma behaves_ret (R : A → Prop) (a : A) : R a → behaves P Q R (mret a).
Proof.
  intros Ha l. exists []. simpl. rewrite app_nil_r.
  repeat split; try done. by intros ? [= <-].
Qed.

Lemma behaves_bind (R1 : A → Prop) (R : B → Prop) (m : prog A)
    (k : A → prog B) :
  behaves P Q R1 m → (∀ a, R1 a → behaves P Q R (k a)) →
  behaves P Q R (m ≫= k).
Proof.
  intros Hm Hk l. destruct (Hm l) as (l1 & Hl1 & HQ1 & HP1 & HR1).
  unfold mbind, prog_bind. destruct (m l) as [[a|e] l1'] eqn:Hml;
    simpl in *; subst l1'.
  - destruct (Hk a (HR1 a eq_refl) (l ++ l1)) as (l2 & Hl2 & HQ2 & HP2 & HR2).
    exists (l1 ++ l2). rewrite Hl2, (assoc_L (++)).
    split; [done|]. split; [by apply Forall_app|]. done.
  - exists l1. repeat split; try done. intros ? [= <-]. by apply HP1.
Qed.

Lemma behaves_lift (R : A → Prop) (c : completion A) :
  (∀ e, c = Throw e → P e) → (∀ a, c = Ok a → R a) →
  behaves P Q R (lift c).
Proof.
  intros HP HR l. exists []. simpl. rewrite app_nil_r. repeat split; done.
Qed.

Lemma behaves_lift_bind (R : B → Prop) (c : completion A) (k : A → prog B) :
  (∀ e, c = Throw e → P e) →
  (∀ a, c = Ok a → behaves P Q R (k a)) →
  behaves P Q R (lift c ≫= k).
Proof.
  intros HP Hk. apply (behaves_bind (fun a => c = Ok a)); [|done].
  by apply behaves_lift.
Qed.

Lemma behaves_log (e : event) : Q e → behaves P Q (fun _ => True) (log e).
Proof.
  intros He l. exists [e]. simpl. repeat split; try done.
  by apply Forall_singleton.
Qed.

Lemma behaves_axios (R : value → Prop) (r : request) (answer : reply) :
  Q (Sent r) →
  (∀ reason, answer = Rejects reason → P (Rejection reason)) →
  (∀ response, answer = Fulfils response → R response) →
  behaves P Q R (axios r answer).
Proof.
  intros HQ HP HR l. exists [Sent r]. unfold axios.
  destruct answer; simpl; (split; [done|]); (split; [by apply Forall_singleton|]);
    split; try done; intros ? [= <-]; eauto.
Qed.

Lemma behaves_try_catch (P' : thrown → Prop) (R : A → Prop) (body : prog A)
    (handler : thrown → prog A) :
  behaves P' Q R body → (∀ e, P' e → behaves P Q R (handler e)) →
  behaves P Q R (try_catch body handler).
Proof.
  intros Hbody Hh l. destruct (Hbody l) as (l1 & Hl1 & HQ1 & HP1 & HR1).
  unfold try_catch. destruct (body l) as [[a|e] l1'] eqn:Hb;
    simpl in *; subst l1'.
  - exists l1. repeat split; done.
  - destruct (Hh e (HP1 e eq_refl) (l ++ l1)) as (l2 & Hl2 & HQ2 & HP2 & HR2).
    exists (l1 ++ l2). rewrite Hl2, (assoc_L (++)).
    split; [done|]. split; [by apply Forall_app|]. done.
Qed.

Lemma behaves_weaken (R R' : A → Prop) (m : prog A) :
  behaves P Q R m → (∀ a, R a → R' a) → behaves P Q R' m.
Proof.
  intros Hm HR l. destruct (Hm l) as (l' & ? & ? & ? & ?).
  exists l'. repeat split; auto.
Qed.

End Behaves.

Lemma behaves_log_bind {B : Type} P Q (R : B → Prop) (e : event)
    (k : unit → prog B) :
  Q e → behaves P Q R (k ()) → behaves P Q R (log e ≫= k).
Proof.
  intros He Hk. apply (behaves_bind P Q (fun _ => True));
    [by apply behaves_log|].
  by intros [].
Qed.

(** ** The three functions *)

Lemma requests_quiet l : Forall quiet_and_filled l → requests l = [].
Proof.
  induction 1 as [|e l He _ IH]; [done|]. unfold requests in *. simpl.
  destruct e; simpl in *; try done.
Qed.

(** Discharge "this operation throws at most a [TypeError]". *)
Ltac no_throw :=
  let e := fresh "e" in
  let H := fresh "H" in
  intros e H;
  first
    [ apply get_throws in H; by subst
    | apply first_throws in H; by subst
    | by apply get_opt_throws in H
    | by apply first_opt_throws in H
    | apply gt_zero_throws in H; by subst
    | apply interpolate_throws in H; by subst ].

Lemma behaves_ret_bind {A B : Type} P Q (R : B → Prop) (a : A)
    (k : A → prog B) :
  behaves P Q R (k a) → behaves P Q R (mret a ≫= k).
Proof. done. Qed.

Lemma behaves_assoc {A B C : Type} P Q (R : C → Prop) (m : prog A)
    (k1 : A → prog B) (k : B → prog C) :
  behaves P Q R (m ≫= fun a => k1 a ≫= k) → behaves P Q R ((m ≫= k1) ≫= k).
Proof.
  intros H l. specialize (H l). unfold mbind, prog_bind in *.
  by destruct (m l) as [[a|e] l1]; [destruct (k1 a l1) as [[?|?] ?]|].
Qed.

Lemma get_opt_truthy v k x :
  get_opt v k = Ok x → truthy x = true → get v k = Ok x.
Proof.
  unfold get_opt. destruct (nullish v); [|done]. by intros [= <-].
Qed.

(** One statement of a program. *)
Ltac step :=
  lazymatch goal with
  | |- behaves _ _ _ (lift _ ≫= _) =>
      let a := fresh "v" in
      let H := fresh "Hv" in
      apply behaves_lift_bind;
      [no_throw|intros a H; try (apply interpolate_ok in H; subst a)]
  | |- behaves _ _ _ (log _ ≫= _) => apply behaves_log_bind; [simpl|]
  | |- behaves _ _ _ (mret _ ≫= _) => apply behaves_ret_bind
  | |- behaves _ _ _ ((_ ≫= _) ≫= _) => apply behaves_assoc
  | |- behaves _ _ _ ((if ?b then _ else _) ≫= _) => destruct b eqn:?
  | |- behaves _ _ _ (if ?b then _ else _) => destruct b eqn:?
  | |- behaves _ _ _ (mret _) => apply behaves_ret
  | |- behaves _ _ _ (log _) =>
      eapply behaves_weaken; [apply behaves_log; simpl|done]
  | |- behaves _ _ _ (lift _) => apply behaves_lift; [no_throw|]
  end.

Lemma describe_behaves (Q : event → Prop) (e : thrown) :
  catchable e → behaves (fun _ => False) Q (fun _ => True) (describe e).
Proof.
  destruct e as [|reason]; simpl; intros Hobj; [by apply behaves_ret|].
  destruct (get_of_object reason "response" Hobj) as [response Hr].
  destruct (get_of_object reason "message" Hobj) as [message Hm].
  destruct (get_opt_total response "data") as [data Hd].
  rewrite Hr, Hm. apply behaves_lift_bind; [done|]. intros ? [= <-].
  rewrite Hd. apply behaves_lift_bind; [done|]. intros ? [= <-].
  destruct (truthy data); [by apply behaves_ret|].
  apply behaves_lift_bind; [done|]. intros ? _. by apply behaves_ret.
Qed.

Lemma status_is_406_behaves (Q : event → Prop) (e : thrown) :
  catchable e → behaves (fun _ => False) Q (fun _ => True) (status_is_406 e).
Proof.
  destruct e as [|reason]; simpl; intros Hobj; [by apply behaves_ret|].
  destruct (get_of_object reason "response" Hobj) as [response Hr].
  destruct (get_opt_total response "status") as [status Hs].
  rewrite Hr. apply behaves_lift_bind; [done|]. intros ? [= <-].
  rewrite Hs. apply behaves_lift_bind; [done|]. intros ? [= <-].
  by apply behaves_ret.
Qed.

(** A [try] block that starts with a request, with its [catch] block: the
    request is sent first, and nothing is thrown past the [catch]. *)
Lemma try_catch_axios {A : Type} (Q : event → Prop) (R : A → Prop)
    (r : request) (answer : reply) (k : value → prog A)
    (h : thrown → prog A) :
  (∀ response, answer = Fulfils response →
               behaves catchable Q R (k response)) →
  (∀ e, catchable e → behaves (fun _ => False) Q R (h e)) →
  (∀ reason, answer = Rejects reason → nullish reason = false) →
  ∀ l, ∃ l' a,
    try_catch (axios r answer ≫= k) h l = (Ok a, l ++ Sent r :: l')
    ∧ Forall Q l'
    ∧ R a.
Proof.
  intros Hbody Hhandler Hreason l.
  unfold try_catch, mbind, prog_bind, axios.
  destruct answer as [response|reason].
  - destruct (Hbody response eq_refl (l ++ [Sent r]))
      as (l1 & Hl1 & HQ1 & HP1 & HR1).
    destruct (k response (l ++ [Sent r])) as [[a|e] l1'] eqn:Hk;
      simpl in *; subst l1'.
    + exists l1, a. rewrite <- (assoc_L (++)). auto.
    + destruct (Hhandler e (HP1 e eq_refl) ((l ++ [Sent r]) ++ l1))
        as (l2 & Hl2 & HQ2 & HP2 & HR2).
      destruct (h e ((l ++ [Sent r]) ++ l1)) as [[a|e'] l2'] eqn:Hh;
        simpl in *; subst l2'; [|by destruct (HP2 e')].
      exists (l1 ++ l2), a. rewrite <- !(assoc_L (++)).
      split; [done|]. split; [by apply Forall_app|auto].
  - destruct (Hhandler (Rejection reason) (Hreason reason eq_refl)
                (l ++ [Sent r])) as (l2 & Hl2 & HQ2 & HP2 & HR2).
    destruct (h (Rejection reason) (l ++ [Sent r])) as [[a|e'] l2'] eqn:Hh;
      simpl in *; subst l2'; [|by destruct (HP2 e')].
    exists l2, a. rewrite <- (assoc_L (++)). auto.
Qed.

(** [recognizeWithRapidAPI], from any log: the request first, then lines
    that are no requests and show no falsy value, and a value returned. *)
Lemma recognize_behaves positive (w : web) :
  (∀ reason, shazam w = Rejects reason → nullish reason = false) →
  ∀ l, ∃ l' v,
    recognizeWithRapidAPI positive w l
    = (Ok v, l ++ Sent ShazamDetect :: l')
    ∧ Forall quiet_and_filled l'.
Proof.
  intros Hreason l. unfold recognizeWithRapidAPI.
  edestruct (try_catch_axios quiet_and_filled (fun _ : value => True))
    as (l' & v & Hrun & HQ & _); [| |exact Hreason|].
  3: { exists l', v. split; [exact Hrun|exact HQ]. }
  - intros response _. cbv beta zeta. repeat step.
    all: try done.
    all: try by apply truthy_or_else.
    all: match goal with
         | Ho : get_opt ?share "href" = Ok ?href, Ht : truthy ?href = true
           |- _ => apply get_opt_truthy in Ho; [|done]
         end; congruence.
  - intros e He. cbv beta.
    apply (behaves_bind _ _ (fun _ => True));
      [by apply describe_behaves|intros d _].
    apply behaves_log_bind; [done|].
    apply (behaves_bind _ _ (fun _ => True));
      [by apply status_is_406_behaves|intros b _].
    apply (behaves_bind _ _ (fun _ => True)).
    + destruct b; [|by apply behaves_ret].
      eapply behaves_weaken; [by apply behaves_log|done].
    + intros _ _. by apply behaves_ret.
Qed.

Lemma requests_app l1 l2 : requests (l1 ++ l2) = requests l1 ++ requests l2.
Proof. apply omap_app. Qed.

Lemma bind_ok {A B : Type} (m : prog A) (k : A → prog B) l a l' :
  m l = (Ok a, l') → (m ≫= k) l = k a l'.
Proof. intros H. unfold mbind, prog_bind. by rewrite H. Qed.

Lemma bind_throw {A B : Type} (m : prog A) (k : A → prog B) l e l' :
  m l = (Throw e, l') → (m ≫= k) l = (Throw e, l').
Proof. intros H. unfold mbind, prog_bind. by rewrite H. Qed.

Lemma try_catch_throw {A : Type} (body : prog A) h l e l' :
  body l = (Throw e, l') → try_catch body h l = h e l'.
Proof. intros H. unfold try_catch. by rewrite H. Qed.

Lemma try_catch_ok {A : Type} (body : prog A) h l a l' :
  body l = (Ok a, l') → try_catch body h l = (Ok a, l').
Proof. intros H. unfold try_catch. by rewrite H. Qed.

Lemma describe_total (e : thrown) :
  catchable e → ∃ d, ∀ l, describe e l = (Ok d, l).
Proof.
  destruct e as [|reason]; simpl; intros Hobj; [by eexists|].
  destruct (get_of_object reason "response" Hobj) as [response Hr].
  destruct (get_of_object reason "message" Hobj) as [message Hm].
  destruct (get_opt_total response "data") as [data Hd].
  unfold mbind, prog_bind, lift. rewrite Hr, Hd, Hm.
  destruct (truthy data); by eexists.
Qed.

Lemma describe_rejection reason response data message l :
  get reason "response" = Ok response →
  get_opt response "data" = Ok data →
  get reason "message" = Ok message →
  describe (Rejection reason) l = (Ok (OfReason (or_else data message)), l).
Proof.
  intros Hr Hd Hm. unfold describe, or_else, mbind, prog_bind, lift.
  rewrite Hr, Hd. destruct (truthy data); [done|]. by rewrite Hm.
Qed.

Lemma status_is_406_rejection reason response status l :
  get reason "response" = Ok response →
  get_opt response "status" = Ok status →
  status_is_406 (Rejection reason) l = (Ok (strict_eq status (Num 406)), l).
Proof.
  intros Hr Hs. unfold status_is_406, mbind, prog_bind, lift.
  by rewrite Hr, Hs.
Qed.

(** X9: when a rejected request is rejected with an object, as axios does
    (a reason that is not [null] or [undefined]), [recognizeWithRapidAPI]
    returns a value whatever the service answers: it throws nothing, so the
    [await] in [main] is not rejected by it; and it sends exactly one
    request, the one to Shazam: the YouTube look-ups are never started. *)
Theorem recognize_settles (positive : value → bool) (w : web) :
  (∀ reason, shazam w = Rejects reason → nullish reason = false) →
  ∀ l, (∃ v, fst (recognizeWithRapidAPI positive w l) = Ok v)
       ∧ requests (snd (recognizeWithRapidAPI positive w l))
         = requests l ++ [ShazamDetect].
Proof.
  intros Hreason l.
  destruct (recognize_behaves positive w Hreason l) as (l' & v & -> & HQ).
  split; [by exists v|]. simpl. rewrite requests_app. f_equal.
  change (Sent ShazamDetect :: l') with ([Sent ShazamDetect] ++ l').
  rewrite requests_app, (requests_quiet l') by done. done.
Qed.


(** A title that is an empty list is truthy and is shown, as the empty
    text; the lines after it are shown as well. *)
Lemma empty_list_title_is_shown :
  recognizeWithRapidAPI Samples.unread Samples.blank []
  = (Ok (Obj [("title", Arr [])]),
     [Sent ShazamDetect; ShazamTime; SongDetected; Title (Arr []);
      Artist (Str "Unknown"); Album (Str "N/A")])
  ∧ truthy (Arr []) = true
  ∧ text_empty (Arr []) = true.
Proof. repeat split; reflexivity. Qed.

(** X11: what [recognizeWithRapidAPI] returns when nothing was detected.
    A request rejected with an object gives [undefined], after one error
    line that shows [response.data] of the reason when that is truthy and
    its [message] otherwise, and after the 406 line exactly when
    [response.status] is the number 406.  A reply without [matches], or
    with an empty list of them, gives [null], after the two lines that say
    so. *)
Theorem recognize_without_match (positive : value → bool) (w : web) :
  (∀ reason response status data message,
      shazam w = Rejects reason →
      get reason "response" = Ok response →
      get_opt response "status" = Ok status →
      get_opt response "data" = Ok data →
      get reason "message" = Ok message →
      recognizeWithRapidAPI positive w []
      = (Ok Undefined,
         [Sent ShazamDetect; RapidApiError (OfReason (or_else data message))]
         ++ (if strict_eq status (Num 406) then [WrongFormat] else []))
      ∧ (strict_eq status (Num 406) = true ↔ status = Num 406))
  ∧ (∀ response data matches,
      shazam w = Fulfils response →
      get response "data" = Ok data →
      get data "matches" = Ok matches →
      matches = Undefined ∨ matches = Null ∨ matches = Arr [] →
      recognizeWithRapidAPI positive w []
      = (Ok Null, [Sent ShazamDetect; ShazamTime; NoMatch; PossibleReasons])).
Proof.
  split.
  - intros reason response status data message Hans Hr Hs Hd Hm.
    split; [|apply strict_eq_number].
    unfold recognizeWithRapidAPI.
    erewrite try_catch_throw;
      [|erewrite bind_throw; [done|unfold axios; by rewrite Hans]].
    erewrite bind_ok by by eapply describe_rejection.
    erewrite bind_ok by done.
    erewrite bind_ok by by eapply status_is_406_rejection.
    by destruct (strict_eq status (Num 406)).
  - intros response data matches Hans Hdata Hmatches Hnone.
    unfold recognizeWithRapidAPI, try_catch, mbind, prog_bind, axios, lift.
    rewrite Hans. simpl. rewrite Hdata, Hmatches.
    by destruct Hnone as [->|[->| ->]].
Qed.

(** X12: when a rejected request is rejected with an object, as axios does
    (a reason that is not [null] or [undefined]), [searchYouTubeVideo]
    returns a value and throws nothing; the value is [null] or the
    [id.videoId] of the first item of the reply; a rejected request gives
    [null] after the error line; and a title or an artist that cannot be
    converted to a string gives [null] after the error line, with no
    request sent. *)
Theorem search_returns (answer : reply) (title artist : value) :
  (∀ reason, answer = Rejects reason → nullish reason = false) →
  (∀ l, ∃ v,
      fst (searchYouTubeVideo answer title artist l) = Ok v
      ∧ (v = Null
         ∨ ∃ response data items video id,
             answer = Fulfils response
             ∧ get response "data" = Ok data
             ∧ get data "items" = Ok items
             ∧ first items = Ok video
             ∧ truthy video = true
             ∧ get video "id" = Ok id
             ∧ get id "videoId" = Ok v))
  ∧ (∀ reason,
      answer = Rejects reason →
      stringifies title = true → stringifies artist = true →
      ∃ d, searchYouTubeVideo answer title artist []
           = (Ok Null, [Sent YouTubeSearch; SearchFailed d]))
  ∧ (stringifies title && stringifies artist = false →
     searchYouTubeVideo answer title artist []
     = (Ok Null, [SearchFailed OfTypeError])).
Proof.
  intros Hreason.
  assert (behaves (fun _ => False) (fun _ => True)
            (fun v => v = Null
               ∨ ∃ response data items video id,
                   answer = Fulfils response
                   ∧ get response "data" = Ok data
                   ∧ get data "items" = Ok items
                   ∧ first items = Ok video
                   ∧ truthy video = true
                   ∧ get video "id" = Ok id
                   ∧ get id "videoId" = Ok v)
            (searchYouTubeVideo answer title artist)) as Hrun.
  { unfold searchYouTubeVideo. apply (behaves_try_catch _ _ catchable).
    - do 2 step.
      apply (behaves_bind _ _ (fun response => answer = Fulfils response)).
      { apply behaves_axios; [done| |done].
        intros reason ->. by apply Hreason. }
      intros response Hresponse. repeat step; try done.
      + by left.
      + right. apply negb_false_iff in Heqb. eauto 12.
    - intros e He. apply (behaves_bind _ _ (fun _ => True));
        [by apply describe_behaves|intros d _].
      apply behaves_log_bind; [done|]. apply behaves_ret. by left. }
  split; [|split].
  - intros l. destruct (Hrun l) as (_ & _ & _ & HP & HR).
    destruct (fst (searchYouTubeVideo answer title artist l)) as [v|e];
      [|by destruct (HP e)].
    exists v. split; [done|]. by apply HR.
  - intros reason Hans Ht Ha.
    assert (catchable (Rejection reason)) as Hobj by (by apply Hreason).
    destruct (describe_total _ Hobj) as [d Hd].
    exists d. unfold searchYouTubeVideo.
    erewrite try_catch_throw.
    2: { erewrite bind_ok by (unfold lift, interpolate; by rewrite Ht).
         erewrite bind_ok by (unfold lift, interpolate; by rewrite Ha).
         erewrite bind_throw; [done|]. unfold axios. by rewrite Hans. }
    erewrite bind_ok by apply Hd. by erewrite bind_ok.
  - intros Hbad. unfold searchYouTubeVideo.
    erewrite (try_catch_throw _ _ _ TypeError []); [done|].
    destruct (stringifies title) eqn:Ht.
    + erewrite bind_ok by (unfold lift, interpolate; by rewrite Ht).
      erewrite bind_throw; [done|]. unfold lift, interpolate.
      simpl in Hbad. by rewrite Hbad.
    + erewrite bind_throw; [done|]. unfold lift, interpolate. by rewrite Ht.
Qed.

(** ** The recommendations *)

Lemma filter_list_kept keep items kept :
  filter_list keep items = Ok kept →
  Forall (fun item => keep item = Ok true) kept.
Proof.
  revert kept. induction items as [|item items IH]; intros kept; simpl.
  - by intros [= <-].
  - unfold mbind, completion_bind.
    destruct (keep item) as [k|] eqn:Hk; try done.
    destruct (filter_list keep items) as [rest|]; try done.
    intros [= <-]. destruct k; auto.
Qed.

Lemma filter_list_throws keep items e :
  (∀ item e, keep item = Throw e → e = TypeError) →
  filter_list keep items = Throw e → e = TypeError.
Proof.
  intros Hkeep. induction items as [|item items IH]; simpl; [done|].
  unfold mbind, completion_bind.
  destruct (keep item) as [k|e'] eqn:Hk.
  - destruct (filter_list keep items) as [rest|e']; try done.
  - intros [= <-]. by eapply Hkeep.
Qed.

Lemma is_other_video_throws videoId item e :
  is_other_video videoId item = Throw e → e = TypeError.
Proof.
  unfold is_other_video, mbind, completion_bind.
  destruct (get item "id") as [id|] eqn:Hid.
  - destruct (get id "videoId") as [itemId|] eqn:Hvid; [done|].
    intros [= <-]. by apply get_throws in Hvid.
  - intros [= <-]. by apply get_throws in Hid.
Qed.

Lemma is_other_video_true videoId item :
  is_other_video videoId item = Ok true →
  ∃ id itemId, get item "id" = Ok id ∧ get id "videoId" = Ok itemId
               ∧ strict_eq itemId videoId = false.
Proof.
  unfold is_other_video, mbind, completion_bind.
  destruct (get item "id") as [id|] eqn:Hid; try done.
  destruct (get id "videoId") as [itemId|] eqn:Hvid; try done.
  intros [= Heq%negb_true_iff]. by exists id, itemId.
Qed.

Lemma filter_throws videoId items e :
  filter (is_other_video videoId) items = Throw e → e = TypeError.
Proof.
  destruct items; simpl; try congruence.
  apply filter_list_throws. apply is_other_video_throws.
Qed.

Lemma filter_kept videoId items kept :
  filter (is_other_video videoId) items = Ok kept →
  Forall (fun item => is_other_video videoId item = Ok true) kept.
Proof. destruct items; simpl; try done. apply filter_list_kept. Qed.

Section Recommendations.
Variable videoId : value.

Local Abbreviation tidy := (ApiSpec.tidy videoId).

Lemma numbers_app l1 l2 :
  recommended_numbers (l1 ++ l2)
  = recommended_numbers l1 ++ recommended_numbers l2.
Proof. apply omap_app. Qed.

Lemma links_app l1 l2 :
  recommended_links (l1 ++ l2) = recommended_links l1 ++ recommended_links l2.
Proof. apply omap_app. Qed.

Lemma plain_numbers l : Forall plain l → recommended_numbers l = [].
Proof.
  induction 1 as [|e l He _ IH]; [done|]. unfold recommended_numbers in *.
  simpl. destruct e; simpl in *; done.
Qed.

Lemma plain_links l : Forall plain l → recommended_links l = [].
Proof.
  induction 1 as [|e l He _ IH]; [done|]. unfold recommended_links in *.
  simpl. destruct e; simpl in *; done.
Qed.

Lemma tidy_nil from room : tidy from room [].
Proof.
  exists 0%nat. split; [lia|]. split; [done|]. split; [done|]. constructor.
Qed.

Lemma tidy_plain from room l : Forall plain l → tidy from room l.
Proof.
  intros Hl. exists 0%nat. rewrite plain_numbers, plain_links by done.
  split; [lia|]. split; [done|]. split; [done|]. constructor.
Qed.

Lemma tidy_plain_l from room l1 l2 :
  Forall plain l1 → tidy from room l2 → tidy from room (l1 ++ l2).
Proof.
  intros Hl1 (n & ? & ? & ? & ?). exists n.
  rewrite numbers_app, links_app, (plain_numbers l1), (plain_links l1)
    by done.
  done.
Qed.

Lemma tidy_plain_r from room l1 l2 :
  tidy from room l1 → Forall plain l2 → tidy from room (l1 ++ l2).
Proof.
  intros (n & ? & ? & ? & ?) Hl2. exists n.
  rewrite numbers_app, links_app, (plain_numbers l2), (plain_links l2),
    !app_nil_r by done.
  done.
Qed.

Lemma emits_plain_bind {A B : Type} P from room (R1 : A → Prop)
    (R : B → Prop) (m : prog A) (k : A → prog B) :
  behaves P plain R1 m → (∀ a, R1 a → emits P (tidy from room) R (k a)) →
  emits P (tidy from room) R (m ≫= k).
Proof.
  intros Hm Hk l. destruct (Hm l) as (l1 & Hl1 & HQ1 & HP1 & HR1).
  unfold mbind, prog_bind. destruct (m l) as [[a|e] l1'] eqn:Hml;
    simpl in *; subst l1'.
  - destruct (Hk a (HR1 a eq_refl) (l ++ l1)) as (l2 & Hl2 & HL2 & HP2).
    exists (l1 ++ l2). rewrite Hl2, (assoc_L (++)).
    split; [done|]. split; [by apply tidy_plain_l|done].
  - exists l1. split; [done|]. split; [by apply tidy_plain|].
    split; [|done]. intros ? [= <-]. by apply HP1.
Qed.

Lemma emits_try_catch {A : Type} P P' from room (R : A → Prop)
    (body : prog A) (h : thrown → prog A) :
  emits P' (tidy from room) R body →
  (∀ e, P' e → behaves P plain R (h e)) →
  emits P (tidy from room) R (try_catch body h).
Proof.
  intros Hbody Hh l. destruct (Hbody l) as (l1 & Hl1 & HL1 & HP1 & HR1).
  unfold try_catch. destruct (body l) as [[a|e] l1'] eqn:Hb;
    simpl in *; subst l1'.
  - exists l1. repeat split; done.
  - destruct (Hh e (HP1 e eq_refl) (l ++ l1)) as (l2 & Hl2 & HQ2 & HP2 & HR2).
    exists (l1 ++ l2). rewrite Hl2, (assoc_L (++)).
    split; [done|]. split; [by apply tidy_plain_r|done].
Qed.

(** One recommendation: three lines, or a [TypeError] before the link. *)
Lemma show_recommendation_emits item index :
  is_other_video videoId item = Ok true →
  ∀ l,
    (∃ t v, strict_eq v videoId = false
       ∧ show_recommendation item index l
         = (Ok (), l ++ [Recommended (index + 1) t; RecommendedLink v;
                         Separator]))
    ∨ (∃ l', show_recommendation item index l = (Throw TypeError, l ++ l')
         ∧ (l' = [] ∨ ∃ t, l' = [Recommended (index + 1) t])).
Proof.
  intros Hother l.
  destruct (is_other_video_true _ _ Hother) as (id & itemId & Hid & Hvid & Hne).
  unfold show_recommendation, mbind, prog_bind, lift, log.
  rewrite Hid.
  destruct (get item "snippet") as [snippet|e] eqn:Hsn.
  2: { apply get_throws in Hsn as ->. right. exists []. rewrite app_nil_r.
       split; [done|by left]. }
  destruct (get snippet "title") as [title|e] eqn:Ht.
  2: { apply get_throws in Ht as ->. right. exists []. rewrite app_nil_r.
       split; [done|by left]. }
  destruct (interpolate title) as [t|e] eqn:Hit.
  2: { apply interpolate_throws in Hit as ->. right. exists [].
       rewrite app_nil_r. split; [done|by left]. }
  rewrite Hvid.
  destruct (interpolate itemId) as [v|e] eqn:Hiv.
  - left. apply interpolate_ok in Hiv as ->. exists t, itemId.
    split; [done|]. by rewrite <- !(assoc_L (++)).
  - apply interpolate_throws in Hiv as ->. right. eexists.
    split; [done|]. right. by eexists.
Qed.

Lemma for_each_emits items : ∀ index,
  Forall (fun item => is_other_video videoId item = Ok true) items →
  emits (fun e => e = TypeError) (tidy index (length items))
    (fun _ => True) (for_each index items).
Proof.
  induction items as [|item items IH]; intros index Hitems l.
  - exists []. simpl. rewrite app_nil_r. split; [done|].
    split; [apply tidy_nil|done].
  - apply Forall_cons in Hitems as [Hitem Hitems]. simpl.
    unfold mbind, prog_bind.
    destruct (show_recommendation_emits item index Hitem l)
      as [(t & v & Hv & ->)|(l' & -> & Hl')].
    + destruct (IH (index + 1) Hitems
                  (l ++ [Recommended (index + 1) t; RecommendedLink v;
                         Separator]))
        as (l2 & Hl2 & (n & Hn & Hnum & Hlen & Hneq) & HP & _).
      exists ([Recommended (index + 1) t; RecommendedLink v; Separator] ++ l2).
      rewrite Hl2, (assoc_L (++)). split; [done|]. split; [|done].
      exists (S n). rewrite numbers_app, links_app, Hnum.
      split; [simpl; lia|]. split.
      { simpl. f_equal; try lia.
        rewrite <- (fmap_S_seq 1), <- list_fmap_compose.
        apply list_fmap_ext. intros ? i _. simpl. lia. }
      split; [simpl; lia|]. simpl. by constructor.
    + exists l'. simpl. split; [done|]. split; [|split; [congruence|done]].
      destruct Hl' as [->|[t ->]]; [apply tidy_nil|].
      exists 1%nat. simpl. split; [lia|]. split; [do 2 f_equal; lia|].
      split; [lia|constructor].
Qed.

Lemma recommendations_emit (video channel : reply) :
  (∀ reason, video = Rejects reason → nullish reason = false) →
  (∀ reason, channel = Rejects reason → nullish reason = false) →
  emits (fun _ => False) (tidy 0 5) (fun v => v = Undefined)
    (getYouTubeRecommendations video channel videoId).
Proof.
  intros Hvideo Hchannel.
  unfold getYouTubeRecommendations.
  apply (emits_try_catch _ catchable).
  - apply (emits_plain_bind _ _ _ (fun _ => True)).
    { apply behaves_axios; [done| |done]. intros reason ->.
      by apply Hvideo. }
    intros videoResponse _.
    apply (emits_plain_bind _ _ _ (fun _ => True));
      [apply behaves_lift; [no_throw|done]|].
    intros data _.
    apply (emits_plain_bind _ _ _ (fun _ => True));
      [apply behaves_lift; [no_throw|done]|].
    intros items _.
    apply (emits_plain_bind _ _ _ (fun _ => True));
      [apply behaves_lift; [no_throw|done]|].
    intros first_video _.
    destruct (negb (truthy first_video)).
    { intros l. exists []. simpl. rewrite app_nil_r.
      split; [done|]. split; [apply tidy_nil|]. split; [done|].
      by intros ? [= <-]. }
    apply (emits_plain_bind _ _ _ (fun _ => True));
      [apply behaves_lift; [no_throw|done]|].
    intros snippet _.
    apply (emits_plain_bind _ _ _ (fun _ => True));
      [apply behaves_lift; [no_throw|done]|].
    intros channelId _.
    apply (emits_plain_bind _ _ _ (fun _ => True)).
    { apply behaves_axios; [done| |done]. intros reason ->.
      by apply Hchannel. }
    intros response _.
    apply (emits_plain_bind _ _ _ (fun _ => True));
      [by apply behaves_log|]. intros _ _.
    apply (emits_plain_bind _ _ _ (fun _ => True));
      [apply behaves_lift; [no_throw|done]|].
    intros data2 _.
    apply (emits_plain_bind _ _ _ (fun _ => True));
      [apply behaves_lift; [no_throw|done]|].
    intros items2 _.
    intros l. unfold mbind at 1, prog_bind at 1, lift at 1.
    destruct (filter (is_other_video videoId) items2) as [others|e] eqn:Hf.
    + apply filter_kept in Hf.
      assert (Forall (fun item => is_other_video videoId item = Ok true)
                (take 5 others)) as Hfive by by apply Forall_take.
      destruct (for_each_emits (take 5 others) 0 Hfive l)
        as (l' & Hl' & (n & Hn & Hrest) & HP & _).
      assert (tidy 0 5 l') as Htidy.
      { exists n. split; [|done]. rewrite length_take in Hn. lia. }
      exists l'. unfold mbind, prog_bind.
      destruct (for_each 0 (take 5 others) l) as [[[]|e] lf] eqn:Hfe;
        simpl in *; subst lf; (split; [done|]); (split; [done|]);
        rewrite Hfe; simpl.
      * split; [done|]. by intros ? [= <-].
      * split; [|done]. intros ? [= <-]. by rewrite (HP e).
    + exists []. rewrite app_nil_r. split; [done|].
      split; [apply tidy_nil|]. simpl. split; [|done]. intros ? [= <-].
      by rewrite (filter_throws _ _ _ Hf).
  - intros e He. apply (behaves_bind _ _ (fun _ => True));
      [by apply describe_behaves|intros d _].
    apply behaves_log_bind; [done|]. by apply behaves_ret.
Qed.

(** X13: when a rejected request is rejected with an object, as axios does
    (a reason that is not [null] or [undefined]),
    [getYouTubeRecommendations] returns [undefined] and throws nothing, and
    whatever the two replies hold it shows at most five recommendations,
    numbered 1, 2, ... in the order shown, each with at most one link, and
    no link shows a value that [===] holds equal to the id it was asked
    about; when that id is a string, or another primitive, no link shows
    that id. *)
Theorem recommendations_tidy (video channel : reply) :
  (∀ reason, video = Rejects reason → nullish reason = false) →
  (∀ reason, channel = Rejects reason → nullish reason = false) →
  ∃ shown n,
    getYouTubeRecommendations video channel videoId [] = (Ok Undefined, shown)
    ∧ (n ≤ 5)%nat
    ∧ recommended_numbers shown = Z.of_nat <$> seq 1 n
    ∧ (length (recommended_links shown) ≤ n)%nat
    ∧ Forall (fun v => strict_eq v videoId = false) (recommended_links shown)
    ∧ (primitive videoId = true →
       Forall (fun v => v ≠ videoId) (recommended_links shown)).
Proof.
  intros Hvideo Hchannel.
  destruct (recommendations_emit video channel Hvideo Hchannel [])
    as (l' & Hl' & (n & Hn & Hnum & Hlen & Hneq) & HP & HR).
  simpl in Hl'.
  destruct (getYouTubeRecommendations video channel videoId [])
    as [[v|e] l''] eqn:Hrun; simpl in *; subst l''; [|by destruct (HP e)].
  rewrite (HR v eq_refl). exists l', n.
  split; [done|]. split; [done|]. split.
  { rewrite Hnum. apply list_fmap_ext. intros ? i _. lia. }
  split; [done|]. split; [done|].
  intros Hprim. eapply Forall_impl; [exact Hneq|].
  intros v' Hv'. by apply strict_eq_false.
Qed.

End Recommendations.

(** An id of another type is not [===] the id asked about, whatever its
    text: the list with the one element [b] is kept for the id [b], and its
    link is shown. *)
Lemma listed_id_is_shown :
  getYouTubeRecommendations
    (Fulfils (Samples.with_items (Arr [Samples.video_of_channel])))
    (Fulfils (Samples.with_items (Arr [Samples.listed_id])))
    (Str "b") []
  = (Ok Undefined,
     [Sent YouTubeVideos; Sent YouTubeSearch; RecommendedSongs;
      Recommended 1 (Str "B"); RecommendedLink (Arr [Str "b"]); Separator]).
Proof. reflexivity. Qed.

Lemma filter_list_search_items (videoId : string) entries :
  filter_list (is_other_video (Str videoId))
    ((fun '(id, title) => search_item id title) <$> entries)
  = Ok ((fun '(id, title) => search_item id title)
          <$> List.filter (fun entry => negb (String.eqb entry.1 videoId))
                entries).
Proof.
  induction entries as [|[id title] entries IH]; [done|].
  rewrite fmap_cons. cbn [filter_list List.filter].
  unfold mbind at 1, completion_bind at 1.
  change (is_other_video (Str videoId) (search_item id title))
    with (Ok (negb (String.eqb id videoId))) at 1.
  rewrite IH. simpl. by destruct (String.eqb id videoId).
Qed.

Lemma for_each_search_items entries : ∀ (index : nat) l,
  for_each (Z.of_nat index)
    ((fun '(id, title) => search_item id title) <$> entries) l
  = (Ok (), l ++ mjoin (imap (fun i => shown (index + i)) entries)).
Proof.
  induction entries as [|[id title] entries IH]; intros index l.
  - simpl. by rewrite app_nil_r.
  - rewrite fmap_cons. cbn [for_each].
    unfold mbind at 1, prog_bind at 1.
    change (show_recommendation (search_item id title) (Z.of_nat index) l)
      with (Ok (), ((l ++ [Recommended (Z.of_nat index + 1) (Str title)])
                      ++ [RecommendedLink (Str id)]) ++ [Separator]).
    replace (Z.of_nat index + 1) with (Z.of_nat (S index)) by lia.
    rewrite IH. f_equal.
    rewrite <- !(assoc_L (++)). f_equal. simpl. unfold shown at 1. simpl.
    replace (Z.of_nat (index + 0) + 1) with (Z.of_nat (S index)) by lia.
    do 3 f_equal. f_equal. apply imap_ext. intros i entry _.
    unfold shown. simpl. do 2 f_equal. lia.
Qed.

(** X14: on a reply of the usual shape, [getYouTubeRecommendations] shows
    exactly the first five items of the search whose id is not the id asked
    about, in the order of the reply, numbered from 1, each with its title
    and its link, and returns [undefined]. *)
Theorem recommendations_of_reply (videoId : string)
    (entries : list (string * string)) (video channel : reply)
    (response1 data1 items1 video1 snippet1 channelId response2 data2
       : value) :
  video = Fulfils response1 →
  get response1 "data" = Ok data1 →
  get data1 "items" = Ok items1 →
  first items1 = Ok video1 →
  truthy video1 = true →
  get video1 "snippet" = Ok snippet1 →
  get snippet1 "channelId" = Ok channelId →
  channel = Fulfils response2 →
  get response2 "data" = Ok data2 →
  get data2 "items" = Ok (search_items entries) →
  getYouTubeRecommendations video channel (Str videoId) []
  = (Ok Undefined,
     [Sent YouTubeVideos; Sent YouTubeSearch; RecommendedSongs]
     ++ mjoin (imap shown
                 (take 5
                    (List.filter
                       (fun entry => negb (String.eqb entry.1 videoId))
                       entries)))).
Proof.
  intros -> Hdata1 Hitems1 Hfirst Htruthy Hsnippet Hchannel -> Hdata2 Hitems2.
  unfold getYouTubeRecommendations.
  erewrite try_catch_ok; [done|].
  erewrite bind_ok by done.
  erewrite bind_ok by (unfold lift; by rewrite Hdata1).
  erewrite bind_ok by (unfold lift; by rewrite Hitems1).
  erewrite bind_ok by (unfold lift; by rewrite Hfirst).
  rewrite Htruthy. cbn [negb].
  erewrite bind_ok by (unfold lift; by rewrite Hsnippet).
  erewrite bind_ok by (unfold lift; by rewrite Hchannel).
  erewrite bind_ok by done.
  erewrite bind_ok by done.
  erewrite bind_ok by (unfold lift; by rewrite Hdata2).
  erewrite bind_ok by (unfold lift; by rewrite Hitems2).
  erewrite bind_ok
    by (unfold lift, search_items, filter;
        by rewrite filter_list_search_items).
  rewrite <- fmap_take.
  erewrite bind_ok by apply (for_each_search_items _ 0).
  done.
Qed.

End ApiLaws.

(** * Waiting for a key: the terminal afterwards *)

Module KeyboardLaws.
Import Keyboard.

Lemma keys_paused n t : flowing t = false → keys n t = t.
Proof.
  intros Hpaused. unfold keys. induction n as [|n IH]; [done|].
  simpl. rewrite IH. unfold key. by rewrite Hpaused.
Qed.

Lemma keys_succ n t : keys (S n) t = keys n (key t).
Proof. unfold keys. apply Nat.iter_succ_r. Qed.

Lemma keys_unheard n t : listeners t = 0%nat → keys n t = t.
Proof.
  intros Hnone. unfold keys. induction n as [|n IH]; [done|].
  simpl. rewrite IH. unfold key. destruct t as [? ? [] k ? ? ?]; [|done].
  simpl in *. by subst k.
Qed.

(** X15: on a terminal, while no key has come stdin is in raw mode and the
    promise is pending; the first key puts the terminal back in cooked
    mode, pauses the input, writes the [Recording] line and resolves the
    promise; further keys change nothing, so the promise is resolved once.
    On a stdin that is no terminal the promise is rejected after the
    prompt, nothing listens, and keys never resolve it. *)
Theorem key_ends_raw_mode (n : nat) (t : terminal) :
  listeners t = 0%nat →
  (isTTY t = true →
   rawMode (waitForKeypress t) = true
   ∧ resolved (waitForKeypress t) = resolved t
   ∧ rejected (waitForKeypress t) = rejected t
   ∧ keys (S n) (waitForKeypress t)
     = mkTerminal true false false 0 (S (resolved t)) (rejected t)
         (output t ++ [Prompt; Recording]))
  ∧ (isTTY t = false →
     keys n (waitForKeypress t)
     = mkTerminal false (rawMode t) (flowing t) 0 (resolved t) true
         (output t ++ [Prompt])).
Proof.
  intros Hnone. split; intros Htty.
  - unfold waitForKeypress. rewrite Htty. split; [done|]. split; [done|].
    split; [done|].
    rewrite keys_succ, keys_paused by done.
    rewrite Hnone. unfold key, listener. simpl.
    by rewrite <- (assoc_L (++)).
  - unfold waitForKeypress. rewrite Htty, Hnone. by apply keys_unheard.
Qed.

End KeyboardLaws.

(** * The further properties at work *)

Lemma snapshot_slides_witness :
  (s' ← writeChunkToCircularBuffer 4 5 [x04; x05; x06; x07; x08] ring4;
   snapshot_bytes 4 s')
  = (before ← snapshot_bytes 4 ring4;
     mret (drop 5 (before ++ [x04; x05; x06; x07; x08]))).
Proof.
  apply (snapshot_slides 4 5 [x04; x05; x06; x07; x08] ring4).
  - ring_ok_by_evaluation.
  - simpl. lia.
Defined.

Lemma most_recent_window_witness :
  run 4 [[x01; x02; x03]; [x04; x05; x06; x07; x08]]
  = Returns [x05; x06; x07; x08].
Proof.
  apply (most_recent_window 4 [[x01; x02; x03]; [x04; x05; x06; x07; x08]]).
  - lia.
  - simpl. lia.
Defined.

Lemma write_frame_witness :
  ∃ s', writeChunkToCircularBuffer 4 5 [x04; x05; x06; x07; x08] ring4
        = Returns s'
    ∧ circularBuffer s' = circularBuffer ring4
    ∧ length (mem s') = length (mem ring4)
    ∧ (∀ id, id ≠ buffer (circularBuffer ring4) →
             mem s' !! id = mem ring4 !! id)
    ∧ ∃ l l', mem ring4 !! buffer (circularBuffer ring4) = Some l
        ∧ mem s' !! buffer (circularBuffer ring4) = Some l'
        ∧ length l' = length l
        ∧ take (Z.to_nat (byteOffset (circularBuffer ring4))) l'
          = take (Z.to_nat (byteOffset (circularBuffer ring4))) l
        ∧ drop (Z.to_nat (byteOffset (circularBuffer ring4) + 4)) l'
          = drop (Z.to_nat (byteOffset (circularBuffer ring4) + 4)) l.
Proof.
  apply (write_frame 4 5 [x04; x05; x06; x07; x08] ring4).
  - ring_ok_by_evaluation.
  - simpl. lia.
Defined.

Lemma write_pass_bound_witness :
  ∃ s', writeChunkToCircularBuffer 4 2 [x04; x05; x06; x07] ring4 = Returns s'
        ∧ on_data 4 [x04; x05; x06; x07] ring4 = Returns s'.
Proof.
  apply (write_pass_bound 4 [x04; x05; x06; x07] ring4).
  - ring_ok_by_evaluation.
  - simpl. lia.
Defined.

Lemma write_cells_witness :
  storage ring4_later !! Z.to_nat ((writeOffset ring4 + Z.of_nat 2) `mod` 4)
  = [x04; x05; x06; x07; x08] !! 2%nat.
Proof.
  apply (write_cells 4 5 [x04; x05; x06; x07; x08] ring4 ring4_later).
  - ring_ok_by_evaluation.
  - simpl. lia.
  - reflexivity.
  - simpl. lia.
  - simpl. lia.
Defined.

Lemma input_round_trip_witness :
  Trace.active_input
    (Orchestration.currentInput
       (Orchestration.but_for Orchestration.Recognize Orchestration.Raises))
    (Orchestration.trace
       (Orchestration.but_for Orchestration.Recognize Orchestration.Raises))
  = Orchestration.currentInput
      (Orchestration.but_for Orchestration.Recognize Orchestration.Raises).
Proof.
  apply (OrchestrationLaws.input_round_trip
           (Orchestration.but_for Orchestration.Recognize
              Orchestration.Raises)).
  - reflexivity.
  - intros p. destruct p; simpl; discriminate.
  - reflexivity.
Defined.

Lemma exit_status_of_run_witness :
  Trace.exit_status
    (Orchestration.trace
       (Orchestration.but_for Orchestration.StartRecording
          Orchestration.Raises))
  = Some 0.
Proof.
  apply (OrchestrationLaws.exit_status_of_run
           (Orchestration.but_for Orchestration.StartRecording
              Orchestration.Raises)).
  - reflexivity.
  - intros p. destruct p; simpl; discriminate.
Defined.


Lemma recognize_settles_witness :
  (∃ v, fst (Api.recognizeWithRapidAPI Samples.unread Samples.down []) = Js.Ok v)
  ∧ Api.requests (snd (Api.recognizeWithRapidAPI Samples.unread Samples.down []))
    = Api.requests [] ++ [Api.ShazamDetect].
Proof.
  apply (ApiLaws.recognize_settles Samples.unread Samples.down).
  intros reason [= <-]. reflexivity.
Defined.


Lemma recognize_without_match_witness :
  Api.recognizeWithRapidAPI Samples.unread Samples.down []
  = (Js.Ok Js.Undefined,
     [Api.Sent Api.ShazamDetect;
      Api.RapidApiError
        (Api.OfReason
           (Js.or_else Js.Undefined
              (Js.Str "Request failed with status code 406")))]
     ++ (if Js.strict_eq (Js.Num 406) (Js.Num 406)
         then [Api.WrongFormat] else []))
  ∧ (Js.strict_eq (Js.Num 406) (Js.Num 406) = true
     ↔ Js.Num 406 = Js.Num 406).
Proof.
  apply (proj1 (ApiLaws.recognize_without_match Samples.unread Samples.down)
           Samples.refused (Js.Obj [("status", Js.Num 406)])); reflexivity.
Defined.

Lemma search_returns_witness :
  ∃ d, Api.searchYouTubeVideo (Api.Rejects Samples.refused)
         (Js.Str "Song") Js.Undefined []
       = (Js.Ok Js.Null, [Api.Sent Api.YouTubeSearch; Api.SearchFailed d]).
Proof.
  refine (proj1 (proj2 (ApiLaws.search_returns (Api.Rejects Samples.refused)
                          (Js.Str "Song") Js.Undefined _))
            Samples.refused _ _ _).
  - intros reason [= <-]. reflexivity.
  - reflexivity.
  - reflexivity.
  - reflexivity.
Defined.

Lemma recommendations_tidy_witness :
  ∃ shown n,
    Api.getYouTubeRecommendations
      (Api.Fulfils (Samples.with_items (Js.Arr [Samples.video_of_channel])))
      (Api.Fulfils (Samples.with_items
                      (Js.Arr [Api.search_item "a" "A"; Js.Null])))
      (Js.Str "b") []
    = (Js.Ok Js.Undefined, shown)
    ∧ (n ≤ 5)%nat
    ∧ Api.recommended_numbers shown = Z.of_nat <$> seq 1 n
    ∧ (length (Api.recommended_links shown) ≤ n)%nat
    ∧ Forall (fun v => Js.strict_eq v (Js.Str "b") = false)
        (Api.recommended_links shown)
    ∧ (Js.primitive (Js.Str "b") = true →
       Forall (fun v => v ≠ Js.Str "b") (Api.recommended_links shown)).
Proof.
  apply (ApiLaws.recommendations_tidy (Js.Str "b")).
  - intros reason. discriminate.
  - intros reason. discriminate.
Defined.

Lemma recommendations_of_reply_witness :
  Api.getYouTubeRecommendations
    (Api.Fulfils (Samples.with_items (Js.Arr [Samples.video_of_channel])))
    (Api.Fulfils
       (Samples.with_items
          (ApiSpec.search_items
             [("a", "A"); ("b", "B"); ("c", "C"); ("d", "D"); ("e", "E");
              ("f", "F"); ("g", "G")])))
    (Js.Str "b") []
  = (Js.Ok Js.Undefined,
     [Api.Sent Api.YouTubeVideos; Api.Sent Api.YouTubeSearch;
      Api.RecommendedSongs]
     ++ mjoin (imap ApiSpec.shown
                 [("a", "A"); ("c", "C"); ("d", "D"); ("e", "E");
                  ("f", "F")])).
Proof.
  eapply (ApiLaws.recommendations_of_reply "b"
            [("a", "A"); ("b", "B"); ("c", "C"); ("d", "D"); ("e", "E");
             ("f", "F"); ("g", "G")]); reflexivity.
Defined.

Lemma key_ends_raw_mode_witness :
  (Keyboard.rawMode (Keyboard.waitForKeypress Keyboard.cooked) = true
   ∧ Keyboard.resolved (Keyboard.waitForKeypress Keyboard.cooked) = 0%nat
   ∧ Keyboard.rejected (Keyboard.waitForKeypress Keyboard.cooked) = false
   ∧ Keyboard.keys 3 (Keyboard.waitForKeypress Keyboard.cooked)
     = Keyboard.mkTerminal true false false 0 1 false
         [Keyboard.Prompt; Keyboard.Recording])
  ∧ Keyboard.keys 3 (Keyboard.waitForKeypress Keyboard.piped)
    = Keyboard.mkTerminal false false false 0 0 true [Keyboard.Prompt].
Proof.
  split.
  - apply (KeyboardLaws.key_ends_raw_mode 2 Keyboard.cooked); reflexivity.
  - apply (KeyboardLaws.key_ends_raw_mode 3 Keyboard.piped); reflexivity.
Defined.
